(** * i3-app-list: app definitions and glyph selection

    A shallow embedding of [src/app_definition.py].  The module exports one
    function, [get_glyph]; everything else is the machinery that lets a user
    declare app definitions ([is_{app_name}] functions in the class
    [AppDefinition]) with an optional priority.

    Conventions of the embedding:
    - Python [str] is Stdlib's [string]; the literals of the rules are all
      ASCII, and [str.lower] and the regex class [\d] are given on the ASCII
      range.
    - the attributes [name], [class_] and [instance_] of a window are
      [option string], [None] being Python's [None];
    - a Python expression evaluates to a [result]: a value or a raised
      exception;
    - the glyph dictionary is a [gmap string string];
    - a class namespace is an insertion-ordered dictionary, kept as an
      association list with unique keys. *)

From Stdlib Require Import ZArith Ascii String List Bool Sorted Permutation.
From stdpp Require Import base option list sorting gmap strings fin_maps.

Open Scope string_scope.
Open Scope Z_scope.
Open Scope list_scope.

(** ** Python values and exceptions *)

Module Py.

(** The values an app definition can return: [None], a bool, a str (from
    [x and y] when [x] is an empty string), or an [re.Match] object, of
    which only the span is kept. *)
Inductive value : Type :=
| VNone
| VBool (b : bool)
| VStr (s : string)
| VMatch (span : nat * nat).

Inductive exn : Type :=
| TypeError        (* re.Pattern.search applied to None *)
| AttributeError.  (* reading a missing attribute *)

Inductive result (A : Type) : Type :=
| Ok (a : A)
| Raise (e : exn).
Arguments Ok {A} a.
Arguments Raise {A} e.

Definition bind {A B} (m : result A) (k : A -> result B) : result B :=
  match m with
  | Ok a => k a
  | Raise e => Raise e
  end.

(** Truth value testing, as done by [if], [and] and [not]. *)
Definition truthy (v : value) : bool :=
  match v with
  | VNone => false
  | VBool b => b
  | VStr s => negb (String.eqb s "")
  | VMatch _ => true
  end.

(** [x and y]: [y] is evaluated only when [x] is true; the value of the
    expression is that of [x] when [x] is false. *)
Definition and_ (x y : result value) : result value :=
  bind x (fun v => if truthy v then y else Ok v).

(** An optional attribute read as a value. *)
Definition of_attr (o : option string) : value :=
  match o with
  | None => VNone
  | Some s => VStr s
  end.

(** [x == "lit"] for an optional string [x]. *)
Definition eq_str (o : option string) (lit : string) : bool :=
  match o with
  | None => false
  | Some s => String.eqb s lit
  end.

(** [x in (lit1, lit2, ...)]. *)
Definition in_tuple (o : option string) (lits : list string) : bool :=
  existsb (eq_str o) lits.

(** [s.startswith(p)]. *)
Definition startswith (s p : string) : bool := String.prefix p s.

(** [sub in s] on strings. *)
Fixpoint contains (sub s : string) : bool :=
  String.prefix sub s ||
  match s with
  | EmptyString => false
  | String _ s' => contains sub s'
  end.

Definition lower_ascii (c : ascii) : ascii :=
  let n := nat_of_ascii c in
  if (65 <=? n)%nat && (n <=? 90)%nat then ascii_of_nat (n + 32)%nat else c.

(** [s.lower()]. *)
Fixpoint lower (s : string) : string :=
  match s with
  | EmptyString => EmptyString
  | String c s' => String (lower_ascii c) (lower s')
  end.

Fixpoint rev_string (acc : list ascii) (tl : string) : string :=
  match acc with
  | [] => tl
  | c :: acc' => rev_string acc' (String c tl)
  end.

(** [s.split(sep)] for a non-empty [sep]: scan from the left, cutting at
    every occurrence of [sep] and resuming after it.  [skip] counts the
    characters of a separator still to pass over, [cur] is the current
    piece, reversed. *)
Fixpoint split_go (sep : string) (skip : nat) (cur : list ascii)
         (s : string) : list string :=
  match skip, s with
  | S k, String _ s' => split_go sep k cur s'
  | S _, EmptyString => [rev_string cur EmptyString]
  | O, EmptyString => [rev_string cur EmptyString]
  | O, String c s' =>
      if String.prefix sep s
      then rev_string cur EmptyString
             :: split_go sep (String.length sep - 1)%nat [] s'
      else split_go sep O (c :: cur) s'
  end.

Definition split (s sep : string) : list string := split_go sep O [] s.

(** [l[-1]] on a list of strings; [split] never returns an empty list. *)
Definition last_item (l : list string) : string := List.last l EmptyString.

(** [s[n:]]. *)
Fixpoint slice_from (n : nat) (s : string) : string :=
  match n, s with
  | O, _ => s
  | S _, EmptyString => EmptyString
  | S k, String _ s' => slice_from k s'
  end.

End Py.

Import Py.

(** ** Regular expressions

    The fragment of [re] that [youtube_re] is written in, with the
    backtracking order of the engine: the left alternative first, an optional
    group first with the group, a repetition first with the longest run. *)

Module Re.

Inductive regex : Type :=
| Lit (s : string)                  (* literal text *)
| Bol                               (* ^ : start of the string *)
| Plus (cls : ascii -> bool)        (* cls+ for a character class *)
| Opt (r : regex)                   (* r? *)
| Seq (r1 r2 : regex)
| Alt (r1 r2 : regex).              (* r1|r2 *)

(** [\d] *)
Definition digit (c : ascii) : bool :=
  let n := nat_of_ascii c in (48 <=? n)%nat && (n <=? 57)%nat.

Definition or_else {A} (a b : option A) : option A :=
  match a with
  | Some _ => a
  | None => b
  end.

Fixpoint lit_at (l : string) (pos : nat) (s : string)
         (k : nat -> string -> option nat) : option nat :=
  match l, s with
  | EmptyString, _ => k pos s
  | String a l', String b s' =>
      if Ascii.eqb a b then lit_at l' (S pos) s' k else None
  | String _ _, EmptyString => None
  end.

Fixpoint plus_at (cls : ascii -> bool) (pos : nat) (s : string)
         (k : nat -> string -> option nat) : option nat :=
  match s with
  | EmptyString => None
  | String c s' =>
      if cls c
      then or_else (plus_at cls (S pos) s' k) (k (S pos) s')
      else None
  end.

(** [match_at r pos s k]: match [r] at offset [pos], where [s] is the rest
    of the subject from [pos] on, and continue with [k]; the result is the
    end offset of the whole match. *)
Fixpoint match_at (r : regex) (pos : nat) (s : string)
         (k : nat -> string -> option nat) : option nat :=
  match r with
  | Lit l => lit_at l pos s k
  | Bol => if Nat.eqb pos 0 then k pos s else None
  | Plus cls => plus_at cls pos s k
  | Opt r1 => or_else (match_at r1 pos s k) (k pos s)
  | Seq r1 r2 => match_at r1 pos s (fun p t => match_at r2 p t k)
  | Alt r1 r2 => or_else (match_at r1 pos s k) (match_at r2 pos s k)
  end.

Fixpoint search_from (r : regex) (pos : nat) (s : string)
  : option (nat * nat) :=
  match match_at r pos s (fun e _ => Some e) with
  | Some e => Some (pos, e)
  | None =>
      match s with
      | EmptyString => None
      | String _ s' => search_from r (S pos) s'
      end
  end.

(** [pattern.search(subject)]: the subject must be a string. *)
Definition search (r : regex) (subject : option string) : result value :=
  match subject with
  | None => Raise TypeError
  | Some s =>
      match search_from r 0 s with
      | Some span => Ok (VMatch span)
      | None => Ok VNone
      end
  end.

End Re.

(** ** Windows, functions and class namespaces *)

(** The attributes of an [i3_app_list.App] that the definitions read:
    window title, window class and window instance. *)
Record App : Type := mkApp {
  name : option string;
  class_ : option string;
  instance_ : option string
}.

(** A Python function object: its [__name__], its [priority] attribute when
    it has been set, and its body. *)
Record function : Type := mkFunction {
  fn_name : string;
  fn_priority : option Z;
  fn_call : App -> result value
}.

(** What a class attribute can hold: a function, or any other object (a
    compiled pattern, the docstring, ...). *)
Inductive object : Type :=
| Func (f : function)
| Other.

(** [AppDefinition.__dict__]: keys in insertion order, no key twice. *)
Definition namespace : Type := list (string * object).

(** [ns[k] = v]: a key that is already bound keeps its place and takes the
    new value; a new key goes last. *)
Fixpoint ns_set (k : string) (v : object) (ns : namespace) : namespace :=
  match ns with
  | [] => [(k, v)]
  | (k', v') :: rest =>
      if String.eqb k k' then (k, v) :: rest else (k', v') :: ns_set k v rest
  end.

Fixpoint ns_get (k : string) (ns : namespace) : option object :=
  match ns with
  | [] => None
  | (k', v') :: rest => if String.eqb k k' then Some v' else ns_get k rest
  end.

(** [ns.values()] *)
Definition values (ns : namespace) : list object := map snd ns.

(** The statements of a class body, each binding a name; executed in order
    into an empty namespace. *)
Definition class_body : Type := list (string * object).

Definition exec_step (ns : namespace) (kv : string * object) : namespace :=
  ns_set (fst kv) (snd kv) ns.

Definition exec_body (body : class_body) : namespace :=
  fold_left exec_step body [].

(** [def name(app): body] *)
Definition def (nm : string) (body : App -> result value) : function :=
  {| fn_name := nm; fn_priority := None; fn_call := body |}.

(** ** The module's helpers *)

Definition is_app_definition (f : object) : bool :=
  match f with
  | Func fn => startswith (fn_name fn) "is_"
  | Other => false
  end.

Definition get_app_name (app_def : function) : string :=
  slice_from 3 (fn_name app_def).

(** The decorator [priority(priority_)]: sets the attribute and returns the
    function. *)
Definition priority (priority_ : Z) (fn : function) : function :=
  {| fn_name := fn_name fn;
     fn_priority := Some priority_;
     fn_call := fn_call fn |}.

(** [StaticMethodPriorityMeta.__init__]: every app definition among the
    attributes that has no priority gets priority 0.  (The rebinding
    [attr = staticmethod(attr)] of the loop variable changes nothing.) *)
Definition default_priority (attr : object) : object :=
  match attr with
  | Func fn =>
      if is_app_definition attr
      then match fn_priority fn with
           | Some _ => attr
           | None => Func (priority 0 fn)
           end
      else attr
  | Other => attr
  end.

Definition StaticMethodPriorityMeta (attrs : namespace) : namespace :=
  map (fun kv => (fst kv, default_priority (snd kv))) attrs.

(** A class statement with this metaclass: the body is executed, then the
    metaclass initialises the class.  Neither step compares a name with the
    names bound before it, and neither raises. *)
Definition make_class (body : class_body) : namespace :=
  StaticMethodPriorityMeta (exec_body body).

Definition class_statement (body : class_body) : result namespace :=
  Ok (make_class body).

(** ** The app definitions *)

Module AppDefinition.

Definition is_download_manager (app : App) : result value :=
  Ok (VBool (eq_str (class_ app) "Uget-gtk")).

Definition is_browser (app : App) : result value :=
  Ok (VBool (in_tuple (class_ app)
               ["Firefox"; "Google-chrome"; "qutebrowser"])).

(** [(^(\(\d+\))?YouTube)|(- YouTube)] *)
Definition youtube_re : Re.regex :=
  Re.Alt
    (Re.Seq Re.Bol
       (Re.Seq
          (Re.Opt (Re.Seq (Re.Lit "(") (Re.Seq (Re.Plus Re.digit) (Re.Lit ")"))))
          (Re.Lit "YouTube")))
    (Re.Lit "- YouTube").

Definition is_youtube (app : App) : result value :=
  and_ (is_browser app) (Re.search youtube_re (name app)).

Definition is_tor (app : App) : result value :=
  Ok (VBool (eq_str (class_ app) "Tor Browser")).

Definition is_pdf_reader (app : App) : result value :=
  Ok (VBool (in_tuple (class_ app)
               ["Okular"; "Zathura"; "Foxit Reader"; "MuPDF"])).

Definition is_virtual_machine (app : App) : result value :=
  Ok (VBool (in_tuple (class_ app)
               ["Vmplayer"; "VirtualBox"; "VirtualBox Manager";
                "VirtualBox Machine"])).

Definition is_media_player (app : App) : result value :=
  and_ (Ok (of_attr (class_ app)))
       (Ok (VBool (in_tuple (option_map lower (class_ app))
                     ["vlc"; "mplayer"]))).

Definition is_wireshark (app : App) : result value :=
  Ok (VBool (eq_str (class_ app) "Wireshark")).

Definition is_terminal (app : App) : result value :=
  Ok (VBool (in_tuple (class_ app)
               ["Gnome-terminal"; "URxvt"; "XTerm"; "st-256color"])).

Definition is_file_browser (app : App) : result value :=
  Ok (VBool (eq_str (class_ app) "Nautilus")).

Definition is_image_viewer (app : App) : result value :=
  Ok (VBool (in_tuple (class_ app) ["Pinta"; "Pqiv"; "feh"; "Eog"])).

Definition is_fontforge (app : App) : result value :=
  Ok (VBool (eq_str (class_ app) "fontforge")).

Definition is_office (app : App) : result value :=
  and_ (Ok (of_attr (class_ app)))
       (Ok (VBool (from_option (fun c => startswith c "libreoffice")
                     false (class_ app)))).

Definition is_gvim (app : App) : result value :=
  Ok (VBool (eq_str (class_ app) "Gvim")).

Definition is_editor (app : App) : result value :=
  Ok (VBool (eq_str (class_ app) "Gedit")).

Definition is_android_studio (app : App) : result value :=
  and_ (and_ (and_ (Ok (VBool (eq_str (class_ app) "jetbrains-studio")))
                   (Ok (VBool (eq_str (instance_ app)
                                 "sun-awt-X11-XFramePeer"))))
             (Ok (of_attr (name app))))
       (Ok (VBool (from_option
                     (fun n => contains "Android Studio"
                                 (last_item (split n " - ")))
                     false (name app)))).

Definition is_skype (app : App) : result value :=
  Ok (VBool (eq_str (class_ app) "Skype")).

Definition is_ida (app : App) : result value :=
  Ok (VBool (eq_str (class_ app) "IDA")).

Definition is_steam (app : App) : result value :=
  Ok (VBool (eq_str (class_ app) "Steam")).

Definition is_burp_suite (app : App) : result value :=
  and_ (Ok (of_attr (name app)))
       (Ok (VBool (from_option (fun n => startswith n "Burp Suite")
                     false (name app)))).

Definition is_gephi (app : App) : result value :=
  and_ (Ok (of_attr (class_ app)))
       (Ok (VBool (from_option (contains "Gephi") false (class_ app)))).

Definition is_zeal (app : App) : result value :=
  Ok (VBool (eq_str (class_ app) "Zeal")).

Definition is_gitk (app : App) : result value :=
  Ok (VBool (eq_str (class_ app) "Gitk")).

Definition is_bless (app : App) : result value :=
  Ok (VBool (eq_str (class_ app) "Bless")).

Definition is_discord (app : App) : result value :=
  Ok (VBool (eq_str (class_ app) "discord")).

Definition is_todoist (app : App) : result value :=
  Ok (VBool (eq_str (class_ app) "todoist")).

Definition is_inkscape (app : App) : result value :=
  Ok (VBool (eq_str (class_ app) "Inkscape")).

(** The class body, statement by statement.  The first two names are
    bound by every class statement; neither of them, nor [youtube_re], nor
    what the class statement adds of its own afterwards, is a function. *)
Definition body : class_body :=
  [ ("__module__", Other);
    ("__doc__", Other);
    ("is_download_manager", Func (def "is_download_manager" is_download_manager));
    ("is_browser", Func (def "is_browser" is_browser));
    ("youtube_re", Other);
    ("is_youtube", Func (priority 5 (def "is_youtube" is_youtube)));
    ("is_tor", Func (def "is_tor" is_tor));
    ("is_pdf_reader", Func (def "is_pdf_reader" is_pdf_reader));
    ("is_virtual_machine", Func (def "is_virtual_machine" is_virtual_machine));
    ("is_media_player", Func (def "is_media_player" is_media_player));
    ("is_wireshark", Func (def "is_wireshark" is_wireshark));
    ("is_terminal", Func (def "is_terminal" is_terminal));
    ("is_file_browser", Func (def "is_file_browser" is_file_browser));
    ("is_image_viewer", Func (def "is_image_viewer" is_image_viewer));
    ("is_fontforge", Func (def "is_fontforge" is_fontforge));
    ("is_office", Func (def "is_office" is_office));
    ("is_gvim", Func (def "is_gvim" is_gvim));
    ("is_editor", Func (def "is_editor" is_editor));
    ("is_android_studio", Func (def "is_android_studio" is_android_studio));
    ("is_skype", Func (def "is_skype" is_skype));
    ("is_ida", Func (def "is_ida" is_ida));
    ("is_steam", Func (def "is_steam" is_steam));
    ("is_burp_suite", Func (def "is_burp_suite" is_burp_suite));
    ("is_gephi", Func (def "is_gephi" is_gephi));
    ("is_zeal", Func (def "is_zeal" is_zeal));
    ("is_gitk", Func (def "is_gitk" is_gitk));
    ("is_bless", Func (def "is_bless" is_bless));
    ("is_discord", Func (def "is_discord" is_discord));
    ("is_todoist", Func (def "is_todoist" is_todoist));
    ("is_inkscape", Func (def "is_inkscape" is_inkscape)) ].

(** [AppDefinition.__dict__] once the class statement has run. *)
Definition __dict__ : namespace := make_class body.

End AppDefinition.

(** ** Sorting

    [list.sort(key=..., reverse=True)]: the keys are computed first, for
    every item, then the items are put in descending key order; the sort is
    stable, also under [reverse=True] (items with equal keys keep their
    order).  It is given here as an insertion sort on the decorated list. *)

Section Sort.
Context {A : Type}.

Fixpoint insert_desc (x : Z * A) (l : list (Z * A)) : list (Z * A) :=
  match l with
  | [] => [x]
  | y :: l' => if fst x <? fst y then y :: insert_desc x l' else x :: l
  end.

Fixpoint sort_desc (l : list (Z * A)) : list (Z * A) :=
  match l with
  | [] => []
  | x :: l' => insert_desc x (sort_desc l')
  end.

(** Descending keys. *)
Definition desc : relation (Z * A) := fun x y => fst y <= fst x.
End Sort.

(** [f.priority] *)
Definition get_priority (f : function) : result Z :=
  match fn_priority f with
  | Some p => Ok p
  | None => Raise AttributeError
  end.

Fixpoint decorate (l : list function) : result (list (Z * function)) :=
  match l with
  | [] => Ok []
  | f :: l' =>
      bind (get_priority f) (fun p =>
      bind (decorate l') (fun d => Ok ((p, f) :: d)))
  end.

(** [l.sort(key=lambda f: f.priority, reverse=True)], as a function of the
    contents of [l]. *)
Definition sort_by_priority (l : list function) : result (list function) :=
  bind (decorate l) (fun d => Ok (map snd (sort_desc d))).

(** ** get_glyph *)

(** The state a call can see: the class namespace [AppDefinition.__dict__]
    and the list objects of the heap, addressed by position. *)
Record world : Type := mkWorld {
  class_dict : namespace;
  lists : list (list function)
}.

(** [[attr for attr in AppDefinition.__dict__.values()
      if is_app_definition(attr)]], as the contents of the new list. *)
Definition keep_app_definition (attr : object) : option function :=
  match attr with
  | Func fn => if is_app_definition attr then Some fn else None
  | Other => None
  end.

Definition app_definitions (ns : namespace) : list function :=
  omap keep_app_definition (values ns).

(** Allocation of a list object. *)
Definition new_list (l : list function) (w : world) : nat * world :=
  (length (lists w),
   {| class_dict := class_dict w; lists := lists w ++ [l] |}).

(** [l.sort(key=..., reverse=True)] on the list object at [loc]: in place;
    the list is left as it was when a key cannot be computed. *)
Definition sort_in_place (loc : nat) (w : world) : result unit * world :=
  match sort_by_priority (default [] (lists w !! loc)) with
  | Ok l' =>
      (Ok tt, {| class_dict := class_dict w; lists := <[loc := l']> (lists w) |})
  | Raise e => (Raise e, w)
  end.

Section Resolve.
Variable app : App.
Variable glyphs : gmap string string.

(** The [for] loop.  Falling off its end is the end of the function,
    which then returns [None]. *)
Fixpoint for_loop (defs : list function) : result (option string) :=
  match defs with
  | [] => Ok None
  | app_def_func :: rest =>
      let app_name := get_app_name app_def_func in
      match glyphs !! app_name with
      | None => for_loop rest
      | Some _ =>
          bind (fn_call app_def_func app) (fun v =>
          if truthy v then Ok (glyphs !! app_name) else for_loop rest)
      end
  end.

(** The same loop, recording the app definitions it calls, in order. *)
Fixpoint for_loop_traced (defs : list function)
  : list function * result (option string) :=
  match defs with
  | [] => ([], Ok None)
  | app_def_func :: rest =>
      let app_name := get_app_name app_def_func in
      match glyphs !! app_name with
      | None => for_loop_traced rest
      | Some _ =>
          match fn_call app_def_func app with
          | Raise e => ([app_def_func], Raise e)
          | Ok v =>
              if truthy v then ([app_def_func], Ok (glyphs !! app_name))
              else let (calls, r) := for_loop_traced rest in
                   (app_def_func :: calls, r)
          end
      end
  end.

(** The first two statements: build the list and sort it. *)
Definition sorted_definitions (w : world)
  : result (list function) * world :=
  let (loc, w1) := new_list (app_definitions (class_dict w)) w in
  match sort_in_place loc w1 with
  | (Ok _, w2) => (Ok (default [] (lists w2 !! loc)), w2)
  | (Raise e, w2) => (Raise e, w2)
  end.

Definition get_glyph (w : world) : result (option string) * world :=
  let (defs, w') := sorted_definitions w in
  (bind defs for_loop, w').

(** The app definitions a call of [get_glyph] calls, in order. *)
Definition get_glyph_calls (w : world) : list function :=
  match fst (sorted_definitions w) with
  | Ok defs => fst (for_loop_traced defs)
  | Raise _ => []
  end.

End Resolve.

(** The sequence of rules that [get_glyph] iterates over for a class
    namespace. *)
Definition rule_sequence (ns : namespace) : result (list function) :=
  sort_by_priority (app_definitions ns).

(** The priority read off a function that has one. *)
Definition priority_of (f : function) : Z := default 0 (fn_priority f).

(** The world right after the module has been loaded. *)
Definition initial_world : world :=
  {| class_dict := AppDefinition.__dict__; lists := [] |}.

(** * Vocabulary of the properties *)

Definition has_priority (f : function) : Prop := is_Some (fn_priority f).

Definition decorated (l : list function) : list (Z * function) :=
  map (λ f, (priority_of f, f)) l.

Definition by_priority : relation function :=
  fun f g => priority_of g <= priority_of f.

(** What the metaclass does to a function. *)
Definition with_default_priority (f : function) : function :=
  match fn_priority f with
  | Some _ => f
  | None => priority 0 f
  end.

Section Conditions.
Variable app : App.
Variable glyphs : gmap string string.

(** [app_name in glyphs] *)
Definition keyed (f : function) : Prop :=
  is_Some (glyphs !! get_app_name f).

Definition returns_true (f : function) : Prop :=
  ∃ v, fn_call f app = Ok v ∧ truthy v = true.

Definition returns_false (f : function) : Prop :=
  ∃ v, fn_call f app = Ok v ∧ truthy v = false.

(** The two conditions of the [if] in the loop. *)
Definition matches (f : function) : Prop := keyed f ∧ returns_true f.

(** A rule that the loop passes over: its name is no key, or its
    predicate returns a false value. *)
Definition passed (f : function) : Prop := keyed f → returns_false f.
End Conditions.

(** What a call returned can be decided by running it. *)
#[global] Instance returns_true_dec app f : Decision (returns_true app f).
Proof.
  unfold returns_true. destruct (fn_call f app) as [v|e].
  - destruct (truthy v) eqn:Ht.
    + left. by exists v.
    + right. intros (v' & [= <-] & Hv'). congruence.
  - right. by intros (v & ? & _).
Defined.

#[global] Instance returns_false_dec app f : Decision (returns_false app f).
Proof.
  unfold returns_false. destruct (fn_call f app) as [v|e].
  - destruct (truthy v) eqn:Ht.
    + right. intros (v' & [= <-] & Hv'). congruence.
    + left. by exists v.
  - right. by intros (v & ? & _).
Defined.

#[global] Instance matches_dec app glyphs f : Decision (matches app glyphs f).
Proof. unfold matches, keyed. apply _. Defined.

#[global] Instance passed_dec app glyphs f : Decision (passed app glyphs f).
Proof. unfold passed, keyed. apply _. Defined.

(** Closed goals are settled by evaluation. *)
Ltac by_evaluation := apply (bool_decide_unpack _); vm_compute; exact I.

(** Windows and glyph dictionaries of the example scenarios. *)
Module Scenario.

Definition firefox (title : option string) (inst : option string) : App :=
  {| name := title; class_ := Some "Firefox"; instance_ := inst |}.

(** A Firefox window on a YouTube video page. *)
Definition video_page : App :=
  firefox (Some "Rocq - YouTube - Mozilla Firefox") None.

Definition unknown_app : App :=
  {| name := None; class_ := Some "Unknown-App"; instance_ := None |}.

Definition browser_and_youtube : gmap string string :=
  <["browser" := "B"]> (<["youtube" := "Y"]> ∅).

Definition youtube_only : gmap string string := <["youtube" := "Y"]> ∅.

Definition browser_only : gmap string string := <["browser" := "B"]> ∅.

(** A glyph for an app that no definition knows. *)
Definition slack_only : gmap string string := <["slack" := "S"]> ∅.

(** A class body that declares [is_editor] twice, the second time with
    another body and a priority. *)
Definition editor_twice : class_body :=
  [ ("is_editor", Func (def "is_editor" AppDefinition.is_editor));
    ("is_gvim", Func (def "is_gvim" AppDefinition.is_gvim));
    ("is_editor", Func (priority 3 (def "is_editor" AppDefinition.is_gvim))) ].

End Scenario.

(** The third part of C3: the glyph of the first rule
    of the sequence that has a key in the dictionary and whose predicate
    returns a true value is what [get_glyph] returns. *)
Definition returns_first_match (app : App) (glyphs : gmap string string)
           (w : world) : Prop :=
  ∀ rules pre f post,
    rule_sequence (class_dict w) = Ok rules →
    rules = pre ++ f :: post →
    Forall (λ g, ¬ matches app glyphs g) pre →
    matches app glyphs f →
    fst (get_glyph app glyphs w) = Ok (glyphs !! get_app_name f).

(** C6: when no app definition of the class both has a
    key in the dictionary and returns a true value, [get_glyph] returns
    [None]. *)
Definition no_match_gives_None (app : App) (glyphs : gmap string string)
           (w : world) : Prop :=
  Forall (λ f, ¬ matches app glyphs f) (app_definitions (class_dict w)) →
  fst (get_glyph app glyphs w) = Ok None.

(** The windows on which [is_youtube] reads a title that is not there: a
    browser class and no title. *)
Definition untitled_browser (app : App) : Prop :=
  in_tuple (class_ app) ["Firefox"; "Google-chrome"; "qutebrowser"] = true ∧
  name app = None.

(** Every name of a list once, at the place where it comes first. *)
Fixpoint first_occurrences (names : list string) : list string :=
  match names with
  | [] => []
  | n :: rest => n :: filter (λ m, m ≠ n) (first_occurrences rest)
  end.

(** The app names that the statements of a class body declare. *)
Definition declared_app_names (body : class_body) : list string :=
  map get_app_name (omap keep_app_definition (map snd body)).

(** C7, read as it stands: a class body that declares an app name twice is
    refused. *)
Definition rejects_duplicates (body : class_body) : Prop :=
  ¬ NoDup (declared_app_names body) → ∃ e, class_statement body = Raise e.

(** ** Further vocabulary *)

(** The titles that [youtube_re] is written for, said without a pattern:
    the title starts with "YouTube", or with a count in parentheses directly
    followed by "YouTube", or has "- YouTube" somewhere. *)
Fixpoint skip_digits (s : string) : string :=
  match s with
  | EmptyString => s
  | String c s' => if Re.digit c then skip_digits s' else s
  end.

Definition counted_prefix (s : string) : bool :=
  match s with
  | String c (String d s') =>
      Ascii.eqb c "("%char && Re.digit d
      && startswith (skip_digits s') ")YouTube"
  | _ => false
  end.

Definition youtube_title (s : string) : bool :=
  startswith s "YouTube" || counted_prefix s || contains "- YouTube" s.

(** What [youtube_re] wants after the digits of a count: ")YouTube". *)
Definition after_count : nat → string → option nat :=
  fun p t => Re.lit_at ")" p t (fun p' t' => Re.lit_at "YouTube" p' t'
                                               (fun e _ => Some e)).

(** Whether a search found something. *)
Definition found {A} (o : option A) : bool :=
  match o with
  | Some _ => true
  | None => false
  end.

(** Further windows and worlds to try the properties on. *)
Module Sample.

(** The world after [AppDefinition.is_slack = ...] has been run on the
    finished class: the metaclass has not seen the new function. *)
Definition late_addition : world :=
  {| class_dict :=
       ns_set "is_slack"
         (Func (def "is_slack"
                  (fun app => Ok (VBool (eq_str (class_ app) "Slack")))))
         AppDefinition.__dict__;
     lists := [] |}.

Definition android_studio : App :=
  {| name := Some "demo - MainActivity.kt - Android Studio";
     class_ := Some "jetbrains-studio";
     instance_ := Some "sun-awt-X11-XFramePeer" |}.

Definition burp : App :=
  {| name := Some "Burp Suite Community Edition";
     class_ := None;
     instance_ := None |}.

(** The app definitions of the module, as function objects. *)
Definition fn_is_youtube : function :=
  priority 5 (def "is_youtube" AppDefinition.is_youtube).

Definition fn_is_download_manager : function :=
  priority 0 (def "is_download_manager" AppDefinition.is_download_manager).

Definition fn_is_browser : function :=
  priority 0 (def "is_browser" AppDefinition.is_browser).

Definition fn_is_burp_suite : function :=
  priority 0 (def "is_burp_suite" AppDefinition.is_burp_suite).

(** A definition that a user adds for Slack. *)
Definition is_slack (app : App) : result value :=
  Ok (VBool (eq_str (class_ app) "Slack")).

Definition slack : App :=
  {| name := Some "general"; class_ := Some "Slack"; instance_ := None |}.

End Sample.

(** * Properties *)

(** ** The sort *)

Section SortFacts.
Context {A : Type}.
Implicit Types (x : Z * A) (l : list (Z * A)).

Lemma insert_desc_perm x l : insert_desc x l ≡ₚ x :: l.
Proof.
  induction l as [|y l IH]; simpl; [done|].
  destruct (fst x <? fst y); [|done].
  rewrite IH. apply Permutation_swap.
Qed.

Lemma sort_desc_perm l : sort_desc l ≡ₚ l.
Proof.
  induction l as [|x l IH]; simpl; [done|].
  by rewrite insert_desc_perm, IH.
Qed.

Lemma insert_desc_sorted x l :
  StronglySorted desc l → StronglySorted desc (insert_desc x l).
Proof.
  induction 1 as [|y l Hl IH Hy]; simpl.
  - repeat constructor.
  - destruct (Z.ltb_spec (fst x) (fst y)) as [Hlt|Hge].
    + constructor; [done|].
      rewrite insert_desc_perm. constructor; [unfold desc; lia|done].
    + constructor; [by constructor|].
      constructor; [unfold desc; lia|].
      eapply Forall_impl; [exact Hy|].
      intros z Hz. unfold desc in *. lia.
Qed.

Lemma sort_desc_sorted l : StronglySorted desc (sort_desc l).
Proof.
  induction l as [|x l IH]; simpl; [constructor|].
  by apply insert_desc_sorted.
Qed.

(** Stability: among the items of one key, the order is untouched. *)
Lemma insert_desc_stable p x l :
  filter (λ y, fst y = p) (insert_desc x l) = filter (λ y, fst y = p) (x :: l).
Proof.
  induction l as [|y l IH]; simpl; [done|].
  destruct (Z.ltb_spec (fst x) (fst y)) as [Hlt|Hge]; [|done].
  rewrite (filter_cons _ y), IH, !filter_cons.
  repeat case_decide; try done; lia.
Qed.

Lemma sort_desc_stable p l :
  filter (λ y, fst y = p) (sort_desc l) = filter (λ y, fst y = p) l.
Proof.
  induction l as [|x l IH]; simpl; [done|].
  by rewrite insert_desc_stable, !filter_cons, IH.
Qed.
End SortFacts.

Lemma decorate_Ok l : Forall has_priority l → decorate l = Ok (decorated l).
Proof.
  induction 1 as [|f l [p Hp] _ IH]; simpl; [done|].
  unfold get_priority, priority_of. rewrite Hp, IH. done.
Qed.

Lemma decorate_Raise l :
  ¬ Forall has_priority l → decorate l = Raise AttributeError.
Proof.
  induction l as [|f l IH]; intros Hn; simpl.
  - destruct Hn. constructor.
  - unfold get_priority. destruct (fn_priority f) as [p|] eqn:Hp; simpl; [|done].
    rewrite IH; [done|]. intros Hl. apply Hn. constructor; [|done].
    by exists p.
Qed.

Lemma snd_decorated l : map snd (decorated l) = l.
Proof.
  unfold decorated. rewrite map_map. simpl. apply map_id.
Qed.

Lemma decorated_keys l :
  Forall (λ x, fst x = priority_of (snd x)) (sort_desc (decorated l)).
Proof.
  rewrite sort_desc_perm. unfold decorated.
  induction l; simpl; constructor; done.
Qed.

Lemma sort_by_priority_Ok l :
  Forall has_priority l →
  sort_by_priority l = Ok (map snd (sort_desc (decorated l))).
Proof.
  intros H. unfold sort_by_priority. by rewrite decorate_Ok.
Qed.

Lemma sort_by_priority_perm l l' :
  sort_by_priority l = Ok l' → l' ≡ₚ l.
Proof.
  unfold sort_by_priority.
  destruct (decide (Forall has_priority l)) as [H|H].
  - rewrite decorate_Ok by done. simpl. intros [= <-].
    rewrite sort_desc_perm. by rewrite snd_decorated.
  - by rewrite decorate_Raise.
Qed.

Lemma sort_by_priority_sorted l l' :
  sort_by_priority l = Ok l' → StronglySorted by_priority l'.
Proof.
  unfold sort_by_priority.
  destruct (decide (Forall has_priority l)) as [H|H];
    [|by rewrite decorate_Raise].
  rewrite decorate_Ok by done. simpl. intros [= <-].
  pose proof (sort_desc_sorted (decorated l)) as Hs.
  pose proof (decorated_keys l) as Hk.
  induction Hs as [|x d Hd IH Hx]; simpl; [constructor|].
  apply Forall_cons in Hk as [Hkx Hk].
  constructor; [by apply IH|].
  clear IH Hd. induction Hx as [|y d Hy _ IH]; simpl; [constructor|].
  apply Forall_cons in Hk as [Hky Hk].
  constructor; [|by apply IH].
  unfold by_priority, desc in *. lia.
Qed.

Lemma sort_by_priority_stable l l' p :
  sort_by_priority l = Ok l' →
  filter (λ f, priority_of f = p) l' = filter (λ f, priority_of f = p) l.
Proof.
  unfold sort_by_priority.
  destruct (decide (Forall has_priority l)) as [H|H];
    [|by rewrite decorate_Raise].
  rewrite decorate_Ok by done. simpl. intros [= <-].
  assert (Hmap : ∀ d : list (Z * function),
             Forall (λ x, fst x = priority_of (snd x)) d →
             filter (λ f, priority_of f = p) (map snd d)
             = map snd (filter (λ x, fst x = p) d)).
  { induction 1 as [|x d Hx _ IH]; simpl; [done|].
    rewrite !filter_cons, IH. repeat case_decide; try done; congruence. }
  rewrite Hmap by apply decorated_keys.
  rewrite sort_desc_stable.
  rewrite <- Hmap; [by rewrite snd_decorated|].
  unfold decorated. clear. induction l; simpl; constructor; done.
Qed.

(** ** Class namespaces *)

Lemma ns_get_set k v k' (ns : namespace) :
  ns_get k' (ns_set k v ns) = if String.eqb k' k then Some v else ns_get k' ns.
Proof.
  induction ns as [|[k0 v0] ns IH]; simpl.
  - by destruct (String.eqb k' k).
  - destruct (String.eqb_spec k k0) as [->|Hne]; simpl.
    + by destruct (String.eqb k' k0).
    + rewrite IH. destruct (String.eqb_spec k' k0) as [->|Hne']; [|done].
      destruct (String.eqb_spec k0 k); congruence.
Qed.

Lemma ns_set_fresh (k : string) v (ns : namespace) :
  k ∉ map fst ns → ns_set k v ns = ns ++ [(k, v)].
Proof.
  induction ns as [|[k0 v0] ns IH]; simpl; intros Hk; [done|].
  apply not_elem_of_cons in Hk as [Hne Hk].
  destruct (String.eqb_spec k k0); [done|]. by rewrite IH.
Qed.

Lemma ns_set_keys (k : string) v (ns : namespace) :
  map fst (ns_set k v ns)
  = if decide (k ∈ map fst ns) then map fst ns else map fst ns ++ [k].
Proof.
  induction ns as [|[k0 v0] ns IH].
  - done.
  - cbn [ns_set]. destruct (String.eqb_spec k k0) as [->|Hne].
    + cbn [map fst]. rewrite decide_True; [done|]. left.
    + cbn [map fst]. rewrite IH.
      destruct (decide (k ∈ map fst ns)) as [Hin|Hin].
      * rewrite decide_True; [done|]. by right.
      * rewrite decide_False; [done|]. by apply not_elem_of_cons.
Qed.

Lemma ns_set_NoDup (k : string) v (ns : namespace) :
  NoDup (map fst ns) → NoDup (map fst (ns_set k v ns)).
Proof.
  intros H. rewrite ns_set_keys. case_decide as Hk; [done|].
  apply NoDup_app. split_and!; [done| |apply NoDup_singleton].
  intros x Hx ->%list_elem_of_singleton. done.
Qed.

Lemma ns_set_elem (kv : string * object) k v (ns : namespace) :
  kv ∈ ns_set k v ns → kv = (k, v) ∨ kv ∈ ns.
Proof.
  induction ns as [|[k0 v0] ns IH]; simpl.
  - intros ->%list_elem_of_singleton. by left.
  - destruct (String.eqb k k0).
    + intros [->|H]%elem_of_cons; [by left|]. right. by right.
    + intros [->|H]%elem_of_cons; [right; left|].
      destruct (IH H) as [->|H']; [by left|]. right. by right.
Qed.

Lemma exec_from_get k (body : class_body) (ns : namespace) :
  ns_get k (fold_left exec_step body ns)
  = match ns_get k (rev body) with
    | Some v => Some v
    | None => ns_get k ns
    end.
Proof.
  revert ns. induction body as [|[k0 v0] body IH]; intros ns; simpl; [done|].
  rewrite IH. unfold exec_step. simpl. rewrite ns_get_set.
  assert (Hrev : ∀ l : namespace,
             ns_get k (l ++ [(k0, v0)])
             = match ns_get k l with
               | Some v => Some v
               | None => if String.eqb k k0 then Some v0 else None
               end).
  { induction l as [|[k1 v1] l IHl]; simpl; [done|].
    destruct (String.eqb k k1); [done|]. apply IHl. }
  rewrite Hrev. destruct (ns_get k (rev body)); [done|].
  by destruct (String.eqb k k0).
Qed.

Lemma exec_from_NoDup (body : class_body) (ns : namespace) :
  NoDup (map fst ns) → NoDup (map fst (fold_left exec_step body ns)).
Proof.
  revert ns. induction body as [|kv body IH]; intros ns H; simpl; [done|].
  apply IH. by apply ns_set_NoDup.
Qed.

Lemma exec_from_elem (kv : string * object) (body : class_body) (ns : namespace) :
  kv ∈ fold_left exec_step body ns → kv ∈ ns ∨ kv ∈ body.
Proof.
  revert ns. induction body as [|[k0 v0] body IH]; intros ns; simpl;
    [by left|].
  intros [H|H]%IH; [|right; by right].
  apply ns_set_elem in H as [->|H]; [right; left|by left].
Qed.

Lemma exec_from_distinct (body : class_body) (ns : namespace) :
  NoDup (map fst (ns ++ body)) → fold_left exec_step body ns = ns ++ body.
Proof.
  revert ns. induction body as [|[k0 v0] body IH]; intros ns H; simpl.
  - by rewrite app_nil_r.
  - change (exec_step ns (k0, v0)) with (ns_set k0 v0 ns). rewrite ns_set_fresh.
    + rewrite IH; rewrite <- app_assoc; done.
    + rewrite map_app in H. simpl in H.
      apply NoDup_app in H as (_ & H & _).
      intros Hk. apply (H k0 Hk). left.
Qed.

(** The name bound last in the body is the one that stays. *)
Lemma exec_body_get k body : ns_get k (exec_body body) = ns_get k (rev body).
Proof.
  unfold exec_body. rewrite exec_from_get. simpl.
  by destruct (ns_get k (rev body)).
Qed.

Lemma exec_body_NoDup body : NoDup (map fst (exec_body body)).
Proof. apply exec_from_NoDup. simpl. constructor. Qed.

Lemma exec_body_elem (kv : string * object) (body : class_body) : kv ∈ exec_body body → kv ∈ body.
Proof.
  intros [H|H]%exec_from_elem; [|done]. by apply elem_of_nil in H.
Qed.

(** With no name bound twice, the namespace lists the body as written. *)
Lemma exec_body_distinct (body : class_body) :
  NoDup (map fst body) → exec_body body = body.
Proof. intros H. by apply (exec_from_distinct body []). Qed.

Lemma meta_keys ns : map fst (StaticMethodPriorityMeta ns) = map fst ns.
Proof.
  unfold StaticMethodPriorityMeta. rewrite map_map. done.
Qed.

Lemma meta_get k ns :
  ns_get k (StaticMethodPriorityMeta ns) = default_priority <$> ns_get k ns.
Proof.
  induction ns as [|[k0 v0] ns IH]; simpl; [done|].
  by destruct (String.eqb k k0).
Qed.

Lemma keep_default_priority attr :
  keep_app_definition (default_priority attr)
  = with_default_priority <$> keep_app_definition attr.
Proof.
  destruct attr as [fn|]; [|done].
  unfold default_priority, keep_app_definition, with_default_priority.
  destruct (is_app_definition (Func fn)) eqn:E; [|by rewrite E].
  destruct (fn_priority fn) eqn:P.
  { rewrite E. simpl. by rewrite P. }
  change (is_app_definition (Func (priority 0 fn)))
    with (is_app_definition (Func fn)).
  rewrite E. simpl. by rewrite P.
Qed.

Lemma meta_app_definitions ns :
  app_definitions (StaticMethodPriorityMeta ns)
  = map with_default_priority (app_definitions ns).
Proof.
  unfold app_definitions, values, StaticMethodPriorityMeta, omap.
  induction ns as [|[k0 v0] ns IH]; [done|].
  cbn [map list_omap snd fst]. rewrite keep_default_priority, IH.
  by destruct (keep_app_definition v0).
Qed.

Lemma with_default_priority_has f : has_priority (with_default_priority f).
Proof.
  unfold with_default_priority, has_priority.
  destruct (fn_priority f) eqn:E; [by rewrite E|]. by eexists.
Qed.

Lemma make_class_has_priority body :
  Forall has_priority (app_definitions (make_class body)).
Proof.
  unfold make_class. rewrite meta_app_definitions.
  apply Forall_forall. intros f (g & <- & _)%list_elem_of_In%in_map_iff.
  apply with_default_priority_has.
Qed.

(** Every function of the class comes from a statement of the body, with
    its name and its code. *)
Lemma make_class_origin (body : class_body) (f : function) :
  f ∈ app_definitions (make_class body) →
  ∃ k f0, (k, Func f0) ∈ body ∧ f = with_default_priority f0.
Proof.
  unfold make_class. rewrite meta_app_definitions.
  intros (f0 & <- & Hf0)%list_elem_of_In%in_map_iff.
  apply list_elem_of_In, list_elem_of_omap in Hf0 as (o & Ho & Hf).
  destruct o as [fn|]; [|done]. simpl in Hf.
  destruct (startswith (fn_name fn) "is_"); [|done].
  injection Hf as ->.
  apply list_elem_of_In, in_map_iff in Ho as ([k v] & Hv & Hin).
  simpl in Hv. subst v. exists k, f0. split; [|done].
  apply exec_body_elem. by apply list_elem_of_In.
Qed.

Lemma rule_sequence_make_class body :
  rule_sequence (make_class body)
  = Ok (map snd (sort_desc (decorated (app_definitions (make_class body))))).
Proof.
  apply sort_by_priority_Ok, make_class_has_priority.
Qed.

(** ** The first two statements of get_glyph *)

(** The list that is built is a new object, sorted in place; nothing else
    of the world changes. *)
Lemma sorted_definitions_spec w :
  sorted_definitions w
  = match rule_sequence (class_dict w) with
    | Ok l => (Ok l, mkWorld (class_dict w) (lists w ++ [l]))
    | Raise e =>
        (Raise e,
         mkWorld (class_dict w) (lists w ++ [app_definitions (class_dict w)]))
    end.
Proof.
  unfold sorted_definitions, new_list, sort_in_place, rule_sequence. simpl.
  rewrite list_lookup_middle by done. simpl.
  destruct (sort_by_priority (app_definitions (class_dict w))) as [l|e];
    [|done].
  simpl.
  replace (length (lists w)) with (length (lists w) + 0)%nat by lia.
  rewrite insert_app_r. simpl.
  replace (length (lists w) + 0)%nat with (length (lists w)) by lia.
  by rewrite list_lookup_middle.
Qed.

Lemma get_glyph_spec app glyphs w :
  fst (get_glyph app glyphs w)
  = bind (rule_sequence (class_dict w)) (for_loop app glyphs).
Proof.
  unfold get_glyph. rewrite sorted_definitions_spec.
  by destruct (rule_sequence (class_dict w)).
Qed.

Lemma get_glyph_calls_spec app glyphs w :
  get_glyph_calls app glyphs w
  = match rule_sequence (class_dict w) with
    | Ok defs => fst (for_loop_traced app glyphs defs)
    | Raise _ => []
    end.
Proof.
  unfold get_glyph_calls. rewrite sorted_definitions_spec.
  by destruct (rule_sequence (class_dict w)).
Qed.

(** ** The loop *)

Section Loop.
Variable app : App.
Variable glyphs : gmap string string.

Lemma returns_true_false f : returns_true app f → returns_false app f → False.
Proof. intros (v & Hv & Ht) (v' & Hv' & Hf). congruence. Qed.

Lemma for_loop_traced_result defs :
  snd (for_loop_traced app glyphs defs) = for_loop app glyphs defs.
Proof.
  induction defs as [|f defs IH]; simpl; [done|].
  destruct (glyphs !! get_app_name f); [|done].
  destruct (fn_call f app) as [v|e]; simpl; [|done].
  destruct (truthy v); [done|].
  by destruct (for_loop_traced app glyphs defs).
Qed.

(** The calls are an initial segment of the rules whose name is a key. *)
Lemma calls_prefix defs :
  ∃ rest, filter (keyed glyphs) defs = fst (for_loop_traced app glyphs defs) ++ rest.
Proof.
  induction defs as [|f defs [rest IH]]; simpl; [by exists []|].
  rewrite filter_cons. destruct (decide (keyed glyphs f)) as [[g Hg]|Hn].
  - rewrite Hg. destruct (fn_call f app) as [v|e]; [|by eexists].
    destruct (truthy v); [by eexists|].
    destruct (for_loop_traced app glyphs defs) as [calls r].
    exists rest. simpl in *. by rewrite IH.
  - apply eq_None_not_Some in Hn. rewrite Hn. by exists rest.
Qed.

(** Every call but the last one returned a false value. *)
Lemma calls_init_false defs init l :
  fst (for_loop_traced app glyphs defs) = init ++ [l] →
  Forall (returns_false app) init.
Proof.
  revert init. induction defs as [|f defs IH]; intros init; simpl.
  - by destruct init.
  - destruct (glyphs !! get_app_name f); [|by apply IH].
    destruct (fn_call f app) as [v|e] eqn:Hc;
      [destruct (truthy v) eqn:Ht|].
    + destruct init as [|? [|? ?]]; intros [=]. constructor.
    + destruct (for_loop_traced app glyphs defs) as [calls r]. simpl in *.
      destruct init as [|f' init]; simpl.
      * constructor.
      * intros [= <- Hcalls]. constructor; [by exists v|by apply IH].
    + destruct init as [|? [|? ?]]; intros [=]. constructor.
Qed.

(** The loop passes over the rules in front of the first match and stops
    at it. *)
Lemma for_loop_first_match pre f post :
  Forall (passed app glyphs) pre → matches app glyphs f →
  for_loop_traced app glyphs (pre ++ f :: post)
  = (filter (keyed glyphs) pre ++ [f], Ok (glyphs !! get_app_name f)).
Proof.
  intros Hpre [[g Hg] (v & Hv & Ht)].
  induction Hpre as [|h pre Hh _ IH]; simpl.
  - by rewrite Hg, Hv, Ht.
  - rewrite filter_cons. destruct (decide (keyed glyphs h)) as [Hk|Hn].
    + destruct (Hh Hk) as (vh & Hvh & Hfh). destruct Hk as [gh Hgh].
      by rewrite Hgh, Hvh, Hfh, IH.
    + apply eq_None_not_Some in Hn. by rewrite Hn.
Qed.

(** With no match and no exception, the loop runs to its end. *)
Lemma for_loop_no_match defs :
  Forall (passed app glyphs) defs →
  for_loop_traced app glyphs defs = (filter (keyed glyphs) defs, Ok None).
Proof.
  induction 1 as [|h defs Hh _ IH]; simpl; [done|].
  rewrite filter_cons. destruct (decide (keyed glyphs h)) as [Hk|Hn].
  - destruct (Hh Hk) as (vh & Hvh & Hfh). destruct Hk as [gh Hgh].
    by rewrite Hgh, Hvh, Hfh, IH.
  - apply eq_None_not_Some in Hn. by rewrite Hn.
Qed.

(** A returned glyph belongs to the first match. *)
Lemma for_loop_Some_inv defs g :
  for_loop app glyphs defs = Ok (Some g) →
  ∃ pre f post,
    defs = pre ++ f :: post ∧ Forall (passed app glyphs) pre ∧ matches app glyphs f ∧
    glyphs !! get_app_name f = Some g.
Proof.
  induction defs as [|h defs IH]; simpl; [done|].
  destruct (glyphs !! get_app_name h) as [gh|] eqn:Hgh.
  - destruct (fn_call h app) as [v|e] eqn:Hc; simpl; [|done].
    destruct (truthy v) eqn:Ht.
    + intros [= <-]. exists [], h, defs. split_and!; try done.
      split; [by eexists|by exists v].
    + intros (pre & f & post & -> & Hpre & Hf & Hg)%IH.
      exists (h :: pre), f, post. split_and!; try done.
      constructor; [|done]. intros _. by exists v.
  - intros (pre & f & post & -> & Hpre & Hf & Hg)%IH.
    exists (h :: pre), f, post. split_and!; try done.
    constructor; [|done]. intros [? ?]. unfold keyed in *. congruence.
Qed.

(** The loop raises only what an app definition raises. *)
Lemma for_loop_Ok defs :
  Forall (λ f, ∃ v, fn_call f app = Ok v) defs →
  ∃ r, for_loop app glyphs defs = Ok r.
Proof.
  induction 1 as [|h defs [v Hv] _ IH]; simpl; [by eexists|].
  destruct (glyphs !! get_app_name h); [|done].
  rewrite Hv. simpl. destruct (truthy v); [by eexists|done].
Qed.
End Loop.

(** * The specification, claim by claim *)

(** C1.  The window of class "Firefox" titled "(1) YouTube - Mozilla
    Firefox", with glyphs for "browser" and "youtube": the youtube rule is
    tried first, but [youtube_re] finds nothing in this title (after the
    optional "(digits)" the pattern wants "YouTube" at once, and here a space
    follows; "- YouTube" does not occur), so [is_youtube] returns [None] and
    [get_glyph] returns the browser glyph "B", not "Y". *)
Theorem C1_counted_youtube_title_gets_browser_glyph inst heap :
  let app := Scenario.firefox (Some "(1) YouTube - Mozilla Firefox") inst in
  let w := mkWorld AppDefinition.__dict__ heap in
  Re.search AppDefinition.youtube_re (name app) = Ok VNone ∧
  AppDefinition.is_youtube app = Ok VNone ∧
  map fn_name (get_glyph_calls app Scenario.browser_and_youtube w)
  = ["is_youtube"; "is_browser"] ∧
  fst (get_glyph app Scenario.browser_and_youtube w) = Ok (Some "B").
Proof.
  intros app w. split_and!.
  - vm_compute. reflexivity.
  - vm_compute. reflexivity.
  - rewrite get_glyph_calls_spec. vm_compute. reflexivity.
  - rewrite get_glyph_spec. vm_compute. reflexivity.
Qed.

(** C2.  The window of class "Firefox" with no title, with glyphs for
    "youtube" and "browser": [is_youtube] passes the missing title to the
    pattern's [search], which raises [TypeError]; [get_glyph] does not reach
    the browser rule and ends with that exception. *)
Theorem C2_untitled_browser_window_raises inst heap :
  let app := Scenario.firefox None inst in
  let w := mkWorld AppDefinition.__dict__ heap in
  AppDefinition.is_youtube app = Raise TypeError ∧
  map fn_name (get_glyph_calls app Scenario.browser_and_youtube w)
  = ["is_youtube"] ∧
  fst (get_glyph app Scenario.browser_and_youtube w) = Raise TypeError.
Proof.
  intros app w. split_and!.
  - vm_compute. reflexivity.
  - rewrite get_glyph_calls_spec. vm_compute. reflexivity.
  - rewrite get_glyph_spec. vm_compute. reflexivity.
Qed.

Lemma StronglySorted_filter {A} (R : relation A) (P : A → Prop)
      `{!∀ x, Decision (P x)} (l : list A) :
  StronglySorted R l → StronglySorted R (filter P l).
Proof.
  induction 1 as [|x l Hl IH Hx]; [constructor|].
  rewrite filter_cons. case_decide; [|done].
  constructor; [done|].
  apply Forall_forall. intros y [_ Hy]%list_elem_of_filter.
  rewrite Forall_forall in Hx. by apply Hx.
Qed.

(** The rule sequence of a class made with the metaclass, with what the
    sort guarantees. *)
Lemma rule_sequence_facts (body : class_body) :
  ∃ rules,
    rule_sequence (make_class body) = Ok rules ∧
    StronglySorted by_priority rules ∧
    rules ≡ₚ app_definitions (make_class body) ∧
    ∀ p, filter (λ f, priority_of f = p) rules
         = filter (λ f, priority_of f = p) (app_definitions (make_class body)).
Proof.
  eexists. split; [apply rule_sequence_make_class|].
  pose proof (rule_sequence_make_class body) as H. unfold rule_sequence in H.
  split_and!.
  - by eapply sort_by_priority_sorted.
  - by eapply sort_by_priority_perm.
  - intros p. by eapply sort_by_priority_stable.
Qed.

(** On the untitled Firefox window with glyphs for "youtube" and
    "browser" the first rule with a key and a predicate that returns true is
    [is_browser], but the call ends in [is_youtube], which raises. *)
Lemma first_match_not_returned :
  ¬ returns_first_match (Scenario.firefox None None)
      Scenario.browser_and_youtube initial_world.
Proof.
  intros H.
  eassert (Hr : fst (get_glyph (Scenario.firefox None None)
                       Scenario.browser_and_youtube initial_world)
                = Ok (Scenario.browser_and_youtube !! get_app_name _)).
  { eapply (H _ [_; _] _ _).
    - apply (rule_sequence_make_class AppDefinition.body).
    - reflexivity.
    - by_evaluation.
    - by_evaluation. }
  rewrite get_glyph_spec in Hr. vm_compute in Hr. discriminate.
Qed.

(** X14.  For every class body, window and glyph dictionary:
    [get_glyph] iterates over the rules in descending priority; the app
    definitions it calls are, in that order, an initial segment of the rules
    whose app name is a key of the dictionary, so no call has a higher
    priority than a call before it; every call but the last returned a false
    value, so nothing is called after a match (or after an exception); and
    when every rule in front of the first match either has no key or returns
    a false value, the call returns the glyph of that first match, having
    called it last.  Conversely a returned glyph is that of such a first
    match. *)
Theorem X14_priority_order_and_short_circuit
        (body : class_body) heap app glyphs :
  let w := mkWorld (make_class body) heap in
  ∃ rules,
    rule_sequence (make_class body) = Ok rules ∧
    StronglySorted by_priority rules ∧
    (∃ rest, filter (keyed glyphs) rules
             = get_glyph_calls app glyphs w ++ rest) ∧
    StronglySorted by_priority (get_glyph_calls app glyphs w) ∧
    (∀ init l, get_glyph_calls app glyphs w = init ++ [l] →
               Forall (returns_false app) init) ∧
    (∀ pre f post,
        rules = pre ++ f :: post →
        Forall (passed app glyphs) pre →
        matches app glyphs f →
        fst (get_glyph app glyphs w) = Ok (glyphs !! get_app_name f) ∧
        get_glyph_calls app glyphs w = filter (keyed glyphs) pre ++ [f]) ∧
    (∀ g, fst (get_glyph app glyphs w) = Ok (Some g) →
          ∃ pre f post,
            rules = pre ++ f :: post ∧ Forall (passed app glyphs) pre ∧
            matches app glyphs f ∧ glyphs !! get_app_name f = Some g).
Proof.
  intros w. destruct (rule_sequence_facts body) as (rules & Hr & Hs & _).
  exists rules. rewrite get_glyph_spec, get_glyph_calls_spec. simpl.
  rewrite Hr. simpl. split_and!; try done.
  - apply calls_prefix.
  - destruct (calls_prefix app glyphs rules) as [rest Hrest].
    apply (StronglySorted_filter _ (keyed glyphs)) in Hs.
    rewrite Hrest in Hs. by apply StronglySorted_app_1_l in Hs.
  - apply calls_init_false.
  - intros pre f post -> Hpre Hf.
    rewrite <- for_loop_traced_result.
    by rewrite (for_loop_first_match _ _ pre f post Hpre Hf).
  - apply for_loop_Some_inv.
Qed.

(** The Firefox window on a YouTube video page: [is_youtube], first in the
    sequence, matches and is the only call. *)
Lemma X14_witness :
  fst (get_glyph Scenario.video_page Scenario.browser_and_youtube
         initial_world) = Ok (Some "Y") ∧
  map fn_name (get_glyph_calls Scenario.video_page
                 Scenario.browser_and_youtube initial_world)
  = ["is_youtube"].
Proof.
  destruct (X14_priority_order_and_short_circuit
              AppDefinition.body [] Scenario.video_page
              Scenario.browser_and_youtube)
    as (rules & Hr & _ & _ & _ & _ & Hfirst & _).
  rewrite rule_sequence_make_class in Hr. injection Hr as <-.
  destruct (Hfirst [] _ _ eq_refl) as [Hg Hc].
  - constructor.
  - by_evaluation.
  - split; [exact Hg|]. change initial_world
      with (mkWorld (make_class AppDefinition.body) []).
    rewrite Hc. vm_compute. reflexivity.
Defined.

(** C4.  For every class body, the list that [get_glyph] sorts and then
    iterates over holds the app definitions of the class in non-increasing
    priority, and the sort is stable: the rules of any one priority stand in
    the order of [AppDefinition.__dict__], which is the order of declaration
    when no name is declared twice. *)
Theorem C4_rule_sequence_sorted_and_stable (body : class_body) heap :
  ∃ rules,
    fst (sorted_definitions (mkWorld (make_class body) heap)) = Ok rules ∧
    rule_sequence (make_class body) = Ok rules ∧
    StronglySorted by_priority rules ∧
    rules ≡ₚ app_definitions (make_class body) ∧
    (∀ p, filter (λ f, priority_of f = p) rules
          = filter (λ f, priority_of f = p)
              (app_definitions (make_class body))) ∧
    (NoDup (map fst body) →
     app_definitions (make_class body)
     = map with_default_priority (omap keep_app_definition (map snd body))).
Proof.
  destruct (rule_sequence_facts body) as (rules & Hr & Hs & Hp & Hst).
  exists rules. split_and!; try done.
  - rewrite sorted_definitions_spec. simpl. by rewrite Hr.
  - intros Hnd. unfold make_class. rewrite meta_app_definitions.
    by rewrite exec_body_distinct.
Qed.

(** The class of the module: no name is declared twice, and the rules of
    priority 0 come out of the sort in the order of the class body. *)
Lemma C4_witness :
  NoDup (map fst AppDefinition.body) ∧
  ∃ rules,
    rule_sequence AppDefinition.__dict__ = Ok rules ∧
    map fn_name (filter (λ f, priority_of f = 0) rules)
    = filter (λ n, n ≠ "is_youtube")
        (map fn_name (app_definitions AppDefinition.__dict__)).
Proof.
  assert (Hnd : NoDup (map fst AppDefinition.body)).
  { by_evaluation. }
  split; [exact Hnd|].
  destruct (C4_rule_sequence_sorted_and_stable AppDefinition.body [])
    as (rules & _ & Hr & _ & _ & Hst & Hdecl).
  exists rules. split; [exact Hr|].
  rewrite (Hst 0). unfold AppDefinition.__dict__.
  rewrite (Hdecl Hnd). vm_compute. reflexivity.
Defined.



(** On the untitled Firefox window with a glyph for "youtube" only no
    rule satisfies both conditions, and the call ends with the [TypeError]
    of [is_youtube] instead of returning [None]. *)
Lemma no_match_but_exception :
  ¬ no_match_gives_None (Scenario.firefox None None)
      Scenario.youtube_only initial_world.
Proof.
  intros H.
  assert (Hr : fst (get_glyph (Scenario.firefox None None)
                      Scenario.youtube_only initial_world) = Ok None).
  { apply H. by_evaluation. }
  rewrite get_glyph_spec in Hr. vm_compute in Hr. discriminate.
Qed.

(** X15.  For every class body, window and glyph dictionary: when every
    app definition whose app name is a key of the dictionary returns a false
    value for the window, [get_glyph] returns [None], as a normal result. *)
Theorem X15_all_passed_returns_None (body : class_body) heap app glyphs :
  Forall (passed app glyphs) (app_definitions (make_class body)) →
  fst (get_glyph app glyphs (mkWorld (make_class body) heap)) = Ok None.
Proof.
  intros Hall.
  destruct (rule_sequence_facts body) as (rules & Hr & _ & Hp & _).
  rewrite get_glyph_spec. simpl. rewrite Hr. simpl.
  rewrite <- Hp in Hall.
  rewrite <- for_loop_traced_result.
  by rewrite (for_loop_no_match _ _ _ Hall).
Qed.

(** The window of class "Unknown-App" with a glyph for "browser" only. *)
Lemma X15_witness :
  fst (get_glyph Scenario.unknown_app Scenario.browser_only initial_world)
  = Ok None.
Proof.
  apply (X15_all_passed_returns_None AppDefinition.body []
           Scenario.unknown_app Scenario.browser_only).
  by_evaluation.
Defined.

(** C7, as stated, fails on a class body with two definitions [is_editor]:
    the class statement succeeds. *)
Lemma C7_duplicate_name_accepted :
  ¬ rejects_duplicates Scenario.editor_twice.
Proof.
  intros H. destruct H as [e He]; [|discriminate He].
  intros Hnd. apply (bool_decide_pack _) in Hnd. vm_compute in Hnd.
  exact Hnd.
Qed.

Lemma app_definitions_names_NoDup (ns : namespace) :
  NoDup (map fst ns) →
  (∀ k f, (k, Func f) ∈ ns → fn_name f = k) →
  NoDup (map fn_name (app_definitions ns)).
Proof.
  unfold app_definitions, values, omap.
  induction ns as [|[k o] ns IH]; intros Hnd Hname; [constructor|].
  cbn [map fst snd list_omap] in *.
  apply NoDup_cons in Hnd as [Hk Hnd].
  assert (IH' : NoDup (map fn_name (list_omap _ _ keep_app_definition
                                      (map snd ns)))).
  { apply IH; [done|]. intros k' f Hf. apply Hname. by right. }
  destruct (keep_app_definition o) as [f|] eqn:Hf; [|done].
  cbn [map]. apply NoDup_cons. split; [|done].
  intros (g & Hg & Hin)%list_elem_of_In%in_map_iff.
  apply list_elem_of_In, list_elem_of_omap in Hin as (o' & Ho' & Hkeep).
  apply list_elem_of_In, in_map_iff in Ho' as ([k' v'] & Hv' & Hin').
  simpl in Hv'. subst v'.
  destruct o as [f1|]; [|done]. destruct o' as [g1|]; [|done].
  simpl in Hf, Hkeep.
  destruct (startswith (fn_name f1) "is_"); [|done].
  destruct (startswith (fn_name g1) "is_"); [|done].
  injection Hf as ->. injection Hkeep as ->.
  apply list_elem_of_In in Hin'.
  assert (fn_name g = k') by (apply Hname; by right).
  assert (fn_name f = k) by (apply Hname; left).
  apply Hk. apply list_elem_of_In, in_map_iff. exists (k', Func g).
  split; [simpl; congruence|by apply list_elem_of_In].
Qed.

(** The names of the namespace stand where the body first binds them. *)
Lemma exec_from_keys (body : class_body) (ns : namespace) :
  map fst (fold_left exec_step body ns)
  = map fst ns
    ++ filter (λ k, k ∉ map fst ns) (first_occurrences (map fst body)).
Proof.
  revert ns. induction body as [|[k v] body IH]; intros ns.
  - cbn. by rewrite app_nil_r.
  - cbn [fold_left map fst first_occurrences]. rewrite IH.
    unfold exec_step. cbn [fst snd]. rewrite ns_set_keys.
    rewrite filter_cons. destruct (decide (k ∈ map fst ns)) as [Hin|Hin].
    + rewrite decide_False by (intros Hn; by apply Hn).
      f_equal. rewrite list_filter_filter. apply list_filter_iff.
      intros m. split; [|by intros [? _]].
      intros Hm. split; [done|]. by intros ->.
    + rewrite decide_True by done. rewrite <- app_assoc. cbn [app].
      do 2 f_equal. rewrite list_filter_filter. apply list_filter_iff.
      intros m. rewrite elem_of_app, list_elem_of_singleton. tauto.
Qed.

Lemma exec_body_keys_order (body : class_body) :
  map fst (exec_body body) = first_occurrences (map fst body).
Proof.
  unfold exec_body. rewrite exec_from_keys. cbn [map app].
  induction (first_occurrences (map fst body)) as [|m l IH]; [done|].
  rewrite filter_cons_True by apply not_elem_of_nil. by rewrite IH.
Qed.

(** C7, amended.  A class statement never fails, whatever names its body
    declares and however often: the namespace of the class has every name
    once, at the place of its first declaration, bound to what the last
    statement for that name bound it to (with the default priority set); so
    where [def] statements declare the app definitions, the class has one
    app definition per name, the one declared last. *)
Theorem C7_last_declaration_wins (body : class_body) :
  ∃ ns,
    class_statement body = Ok ns ∧
    NoDup (map fst ns) ∧
    map fst ns = first_occurrences (map fst body) ∧
    (∀ k, ns_get k ns = default_priority <$> ns_get k (rev body)) ∧
    ((∀ k f, (k, Func f) ∈ body → fn_name f = k) →
     NoDup (map fn_name (app_definitions ns))).
Proof.
  exists (make_class body). split_and!; [done| | | |].
  - unfold make_class. rewrite meta_keys. apply exec_body_NoDup.
  - unfold make_class. rewrite meta_keys. apply exec_body_keys_order.
  - intros k. unfold make_class. by rewrite meta_get, exec_body_get.
  - intros Hname. unfold make_class. rewrite meta_app_definitions.
    rewrite map_map.
    assert (Hn : ∀ f, fn_name (with_default_priority f) = fn_name f).
    { intros f. unfold with_default_priority. by destruct (fn_priority f). }
    rewrite (map_ext _ _ Hn).
    apply app_definitions_names_NoDup; [apply exec_body_NoDup|].
    intros k f Hf. by apply Hname, exec_body_elem.
Qed.

(** The body with two definitions [is_editor]: the class has one, the
    second, at the place of the first. *)
Lemma C7_witness :
  ∃ ns,
    class_statement Scenario.editor_twice = Ok ns ∧
    map fst ns = ["is_editor"; "is_gvim"] ∧
    map (λ f, (fn_name f, fn_priority f)) (app_definitions ns)
    = [("is_editor", Some 3); ("is_gvim", Some 0)] ∧
    NoDup (map fn_name (app_definitions ns)).
Proof.
  destruct (C7_last_declaration_wins Scenario.editor_twice)
    as (ns & Hns & _ & Hkeys & _ & Hnd).
  exists ns. split; [exact Hns|].
  split; [rewrite Hkeys; vm_compute; reflexivity|].
  split.
  - injection Hns as <-. vm_compute. reflexivity.
  - apply Hnd. intros k f Hf.
    unfold Scenario.editor_twice in Hf.
    repeat (apply elem_of_cons in Hf as [Hf|Hf];
            [injection Hf as -> ->; reflexivity|]).
    by apply elem_of_nil in Hf.
Defined.

(** C8.  A call of [get_glyph] leaves the class namespace and every list
    object of the heap as they were: all it writes is the list it has built
    itself.  The window and the glyph dictionary are only read.  A second
    call, in the world the first has left, gives the same result. *)
Theorem C8_get_glyph_has_no_side_effect app glyphs w :
  let first := get_glyph app glyphs w in
  let second := get_glyph app glyphs (snd first) in
  fst second = fst first ∧
  class_dict (snd first) = class_dict w ∧
  (∃ l, lists (snd first) = lists w ++ [l]) ∧
  class_dict (snd second) = class_dict w.
Proof.
  intros first second. subst first second.
  assert (Hw : class_dict (snd (get_glyph app glyphs w)) = class_dict w
               ∧ ∃ l, lists (snd (get_glyph app glyphs w)) = lists w ++ [l]).
  { unfold get_glyph. rewrite sorted_definitions_spec.
    destruct (rule_sequence (class_dict w)); simpl; eauto. }
  destruct Hw as [Hc Hl]. split_and!; try done.
  - rewrite !get_glyph_spec. by rewrite Hc.
  - unfold get_glyph at 1. rewrite sorted_definitions_spec.
    rewrite Hc. by destruct (rule_sequence (class_dict w)).
Qed.

Lemma with_default_priority_call f :
  fn_call (with_default_priority f) = fn_call f.
Proof. unfold with_default_priority. by destruct (fn_priority f). Qed.

(** On a window without a class, every function bound in the class body
    returns. *)
Lemma body_returns_without_class title inst :
  Forall (λ kv, match snd kv with
                | Func f => ∃ v, fn_call f (mkApp title None inst) = Ok v
                | Other => True
                end) AppDefinition.body.
Proof.
  unfold AppDefinition.body.
  repeat (apply List.Forall_cons;
          [ cbn [snd fn_call def priority];
            first [ exact I
                  | eexists; reflexivity
                  | destruct title as [[|c s]|]; eexists; reflexivity ]
          | ]).
  apply List.Forall_nil.
Qed.

(** C9.  For a window whose class is [None], whatever its title and its
    instance and whatever the glyph dictionary: every app definition of
    [AppDefinition] returns a value, and so does [get_glyph]. *)
Theorem C9_no_exception_without_class app glyphs heap :
  class_ app = None →
  Forall (λ f, ∃ v, fn_call f app = Ok v)
    (app_definitions AppDefinition.__dict__) ∧
  ∃ r, fst (get_glyph app glyphs (mkWorld AppDefinition.__dict__ heap)) = Ok r.
Proof.
  intros Hc. destruct app as [title cls inst]. simpl in Hc. subst cls.
  assert (Hall : Forall (λ f, ∃ v, fn_call f (mkApp title None inst) = Ok v)
                   (app_definitions AppDefinition.__dict__)).
  { apply Forall_forall. intros f Hf.
    apply make_class_origin in Hf as (k & f0 & Hin & ->).
    rewrite with_default_priority_call.
    pose proof (body_returns_without_class title inst) as Hb.
    rewrite Forall_forall in Hb. apply (Hb _ Hin). }
  split; [exact Hall|].
  destruct (rule_sequence_facts AppDefinition.body) as (rules & Hr & _ & Hp & _).
  rewrite get_glyph_spec. cbn [class_dict].
  change AppDefinition.__dict__ with (make_class AppDefinition.body) in *.
  rewrite Hr. cbn [bind]. apply for_loop_Ok.
  by rewrite Hp.
Qed.

(** A window with neither class nor title nor instance, and glyphs for
    "browser" and "youtube". *)
Lemma C9_witness :
  ∃ r, fst (get_glyph (mkApp None None None) Scenario.browser_and_youtube
              initial_world) = Ok r.
Proof.
  apply (C9_no_exception_without_class (mkApp None None None)
           Scenario.browser_and_youtube [] eq_refl).
Defined.

(** C10.  In [AppDefinition] the decorator gives a priority to
    [is_youtube] alone, 5; the metaclass gives 0 to all the others.  The
    rules therefore come in the order: [is_youtube], then the others as the
    class body declares them.  When "youtube" is a key of the glyph
    dictionary, [is_youtube] is the first app definition called: the result
    of [get_glyph] is the "youtube" glyph when [is_youtube] returns a true
    value, the exception of [is_youtube] when it raises, and otherwise (as
    when "youtube" is no key) the result of the loop over the other rules in
    the order of their declaration. *)
Theorem C10_youtube_first_then_declaration_order :
  map (λ f, (fn_name f, fn_priority f))
    (filter (λ f, fn_priority f ≠ None)
       (app_definitions (exec_body AppDefinition.body)))
  = [("is_youtube", Some 5)] ∧
  map (λ f, (fn_name f, fn_priority f))
    (filter (λ f, fn_priority f ≠ Some 0)
       (app_definitions AppDefinition.__dict__))
  = [("is_youtube", Some 5)] ∧
  map fn_name (app_definitions AppDefinition.__dict__)
  = ["is_download_manager"; "is_browser"; "is_youtube"; "is_tor";
     "is_pdf_reader"; "is_virtual_machine"; "is_media_player";
     "is_wireshark"; "is_terminal"; "is_file_browser"; "is_image_viewer";
     "is_fontforge"; "is_office"; "is_gvim"; "is_editor";
     "is_android_studio"; "is_skype"; "is_ida"; "is_steam"; "is_burp_suite";
     "is_gephi"; "is_zeal"; "is_gitk"; "is_bless"; "is_discord";
     "is_todoist"; "is_inkscape"] ∧
  (∃ rules,
      rule_sequence AppDefinition.__dict__ = Ok rules ∧
      map fn_name rules
      = ["is_youtube"; "is_download_manager"; "is_browser"; "is_tor";
         "is_pdf_reader"; "is_virtual_machine"; "is_media_player";
         "is_wireshark"; "is_terminal"; "is_file_browser"; "is_image_viewer";
         "is_fontforge"; "is_office"; "is_gvim"; "is_editor";
         "is_android_studio"; "is_skype"; "is_ida"; "is_steam";
         "is_burp_suite"; "is_gephi"; "is_zeal"; "is_gitk"; "is_bless";
         "is_discord"; "is_todoist"; "is_inkscape"]) ∧
  (∀ app glyphs heap,
      is_Some (glyphs !! "youtube") →
      ∃ rest,
        map fn_name
          (get_glyph_calls app glyphs (mkWorld AppDefinition.__dict__ heap))
        = "is_youtube" :: rest) ∧
  (∃ others,
      map fn_name others
      = ["is_download_manager"; "is_browser"; "is_tor"; "is_pdf_reader";
         "is_virtual_machine"; "is_media_player"; "is_wireshark";
         "is_terminal"; "is_file_browser"; "is_image_viewer"; "is_fontforge";
         "is_office"; "is_gvim"; "is_editor"; "is_android_studio"; "is_skype";
         "is_ida"; "is_steam"; "is_burp_suite"; "is_gephi"; "is_zeal";
         "is_gitk"; "is_bless"; "is_discord"; "is_todoist"; "is_inkscape"] ∧
      ∀ app glyphs heap,
        fst (sorted_definitions (mkWorld AppDefinition.__dict__ heap))
        = Ok (Sample.fn_is_youtube :: others) ∧
        fst (get_glyph app glyphs (mkWorld AppDefinition.__dict__ heap))
        = match glyphs !! "youtube" with
          | Some _ =>
              bind (AppDefinition.is_youtube app) (λ v,
                if truthy v then Ok (glyphs !! "youtube")
                else for_loop app glyphs others)
          | None => for_loop app glyphs others
          end).
Proof.
  assert (Hrules : ∃ rules,
             rule_sequence AppDefinition.__dict__ = Ok rules ∧
             map fn_name rules
             = ["is_youtube"; "is_download_manager"; "is_browser"; "is_tor";
                "is_pdf_reader"; "is_virtual_machine"; "is_media_player";
                "is_wireshark"; "is_terminal"; "is_file_browser";
                "is_image_viewer"; "is_fontforge"; "is_office"; "is_gvim";
                "is_editor"; "is_android_studio"; "is_skype"; "is_ida";
                "is_steam"; "is_burp_suite"; "is_gephi"; "is_zeal"; "is_gitk";
                "is_bless"; "is_discord"; "is_todoist"; "is_inkscape"]).
  { eexists. split; [apply rule_sequence_make_class|]. vm_compute. reflexivity. }
  split_and!; [vm_compute; reflexivity ..|exact Hrules| |].
  2:{ assert (Hr : ∃ others,
                 rule_sequence AppDefinition.__dict__
                 = Ok (Sample.fn_is_youtube :: others)).
      { eexists.
        change AppDefinition.__dict__ with (make_class AppDefinition.body).
        rewrite rule_sequence_make_class. reflexivity. }
      destruct Hr as [others Hr]. exists others. split.
      - destruct Hrules as (rules & Hr' & Hn). rewrite Hr in Hr'.
        injection Hr' as <-. by injection Hn as Hn.
      - intros app glyphs heap. split.
        + rewrite sorted_definitions_spec. cbn [class_dict]. by rewrite Hr.
        + rewrite get_glyph_spec. cbn [class_dict]. rewrite Hr. reflexivity. }
  intros app glyphs heap [g Hg].
  destruct Hrules as (rules & Hr & Hn).
  rewrite get_glyph_calls_spec. cbn [class_dict]. rewrite Hr.
  destruct rules as [|fy rules]; [discriminate Hn|].
  injection Hn as Hy _. cbn [for_loop_traced].
  assert (Hname : get_app_name fy = "youtube")
    by (unfold get_app_name; by rewrite Hy).
  rewrite Hname, Hg.
  destruct (fn_call fy app) as [v|e]; [destruct (truthy v)|];
    try (simpl; rewrite Hy; by eexists).
  destruct (for_loop_traced app glyphs rules) as [calls r].
  simpl. rewrite Hy. by eexists.
Qed.

(** A Firefox window on the YouTube start page. *)
Lemma C10_witness :
  (∃ rest,
      map fn_name
        (get_glyph_calls
           (Scenario.firefox (Some "YouTube - Mozilla Firefox") None)
           Scenario.browser_and_youtube initial_world)
      = "is_youtube" :: rest) ∧
  fst (get_glyph (Scenario.firefox (Some "YouTube - Mozilla Firefox") None)
         Scenario.browser_and_youtube initial_world) = Ok (Some "Y").
Proof.
  destruct C10_youtube_first_then_declaration_order
    as (_ & _ & _ & _ & H & (others & _ & Hg)).
  split.
  - apply (H (Scenario.firefox (Some "YouTube - Mozilla Firefox") None)
             Scenario.browser_and_youtube []).
    by_evaluation.
  - destruct (Hg (Scenario.firefox (Some "YouTube - Mozilla Firefox") None)
                Scenario.browser_and_youtube []) as [_ Hres].
    change initial_world with (mkWorld AppDefinition.__dict__ []).
    rewrite Hres. vm_compute. reflexivity.
Defined.

(** * Further properties of the module *)

(** ** The loop, continued *)

Section LoopMore.
Variable app : App.
Variable glyphs : gmap string string.

(** An exception of the loop is the exception of the last call. *)
Lemma for_loop_traced_Raise defs e :
  snd (for_loop_traced app glyphs defs) = Raise e →
  ∃ init f,
    fst (for_loop_traced app glyphs defs) = init ++ [f] ∧
    keyed glyphs f ∧ fn_call f app = Raise e.
Proof.
  induction defs as [|h defs IH]; simpl; [done|].
  destruct (glyphs !! get_app_name h) as [gh|] eqn:Hgh; [|exact IH].
  destruct (fn_call h app) as [v|e'] eqn:Hc.
  - destruct (truthy v); [done|].
    destruct (for_loop_traced app glyphs defs) as [calls r]. simpl in *.
    intros (init & f & -> & Hf)%IH. by exists (h :: init), f.
  - simpl. intros [= ->]. exists [], h. split_and!; try done. by exists gh.
Qed.

(** One candidate: when every rule but [f] is passed over, the result
    depends on [f] alone. *)
Lemma for_loop_single defs f v :
  Forall (λ g, g = f ∨ passed app glyphs g) defs →
  fn_call f app = Ok v →
  f ∈ defs →
  for_loop app glyphs defs
  = Ok (if truthy v then glyphs !! get_app_name f else None).
Proof.
  intros Hall Hv Hin.
  destruct (decide (matches app glyphs f)) as [Hm|Hm].
  - assert (Ht : truthy v = true).
    { destruct Hm as [_ (v' & Hv' & Ht)]. congruence. }
    rewrite Ht. destruct Hm as [[g Hg] _].
    induction Hall as [|h defs Hh _ IH]; [by apply elem_of_nil in Hin|].
    simpl. destruct Hh as [->|Hp].
    + rewrite Hg, Hv. simpl. by rewrite Ht.
    + apply elem_of_cons in Hin as [->|Hin].
      * destruct Hp as (v' & Hv' & Hf'); [by exists g|]. congruence.
      * destruct (glyphs !! get_app_name h) as [gh|] eqn:Hgh; [|by apply IH].
        destruct Hp as (v' & Hv' & Hf'); [by exists gh|].
        rewrite Hv'. simpl. rewrite Hf'. by apply IH.
  - assert (Hp : passed app glyphs f).
    { intros Hk. exists v. split; [done|].
      destruct (truthy v) eqn:Ht; [|done].
      destruct Hm. split; [done|]. by exists v. }
    assert (Hall' : Forall (passed app glyphs) defs).
    { eapply Forall_impl; [exact Hall|]. by intros g [->|?]. }
    rewrite <- for_loop_traced_result, (for_loop_no_match _ _ _ Hall').
    simpl. destruct (truthy v) eqn:Ht; [|done].
    destruct (glyphs !! get_app_name f) as [g|] eqn:Hg; [|done].
    destruct Hm. split; [by exists g|by exists v].
Qed.

(** A key that is no app name of the rules does not count. *)
Lemma for_loop_traced_insert defs k (g : string) :
  k ∉ map get_app_name defs →
  for_loop_traced app (<[k := g]> glyphs) defs
  = for_loop_traced app glyphs defs.
Proof.
  induction defs as [|h defs IH]; simpl; [done|].
  intros [Hne Hk]%not_elem_of_cons.
  rewrite lookup_insert_ne by done. by rewrite IH.
Qed.

Lemma for_loop_traced_delete defs (k : string) :
  k ∉ map get_app_name defs →
  for_loop_traced app (delete k glyphs) defs
  = for_loop_traced app glyphs defs.
Proof.
  induction defs as [|h defs IH]; simpl; [done|].
  intros [Hne Hk]%not_elem_of_cons.
  rewrite lookup_delete_ne by done. by rewrite IH.
Qed.
End LoopMore.

(** ** get_glyph and the class it reads *)

(** X1.  [get_glyph] reads [f.priority] of every app definition before it
    looks at the window: when an app definition of the class has no
    priority (a function put into the class after the class statement, which
    the metaclass has not seen), every call ends with [AttributeError], for
    every window and glyph dictionary, and no app definition is called. *)
Theorem X1_missing_priority_raises app glyphs w :
  ¬ Forall has_priority (app_definitions (class_dict w)) →
  fst (get_glyph app glyphs w) = Raise AttributeError ∧
  get_glyph_calls app glyphs w = [].
Proof.
  intros Hn. rewrite get_glyph_spec, get_glyph_calls_spec.
  unfold rule_sequence, sort_by_priority.
  by rewrite (decorate_Raise _ Hn).
Qed.

Lemma X1_witness :
  fst (get_glyph Sample.slack Scenario.browser_only Sample.late_addition)
  = Raise AttributeError ∧
  get_glyph_calls Sample.slack Scenario.browser_only Sample.late_addition = [].
Proof.
  apply (X1_missing_priority_raises Sample.slack Scenario.browser_only
           Sample.late_addition).
  by_evaluation.
Defined.

(** X2.  The metaclass is idempotent and keeps the names and their order;
    it leaves alone every attribute that is no app definition and every
    function that has a priority already, so a priority set by the decorator
    is never replaced by the default. *)
Theorem X2_metaclass_keeps_what_is_set (ns : namespace) :
  StaticMethodPriorityMeta (StaticMethodPriorityMeta ns)
  = StaticMethodPriorityMeta ns ∧
  map fst (StaticMethodPriorityMeta ns) = map fst ns ∧
  (∀ k attr, ns_get k ns = Some attr →
             is_app_definition attr = false →
             ns_get k (StaticMethodPriorityMeta ns) = Some attr) ∧
  (∀ k f p, ns_get k ns = Some (Func f) →
            fn_priority f = Some p →
            ns_get k (StaticMethodPriorityMeta ns) = Some (Func f)).
Proof.
  split_and!.
  - unfold StaticMethodPriorityMeta. rewrite map_map. apply map_ext.
    intros [k attr]. simpl. f_equal.
    destruct attr as [f|]; [|done]. unfold default_priority.
    destruct (is_app_definition (Func f)) eqn:E; [|by rewrite E].
    destruct (fn_priority f) eqn:P.
    + by rewrite E, P.
    + change (is_app_definition (Func (priority 0 f)))
        with (is_app_definition (Func f)). by rewrite E.
  - apply meta_keys.
  - intros k attr Hk Hno. rewrite meta_get, Hk. simpl. f_equal.
    destruct attr as [f|]; [|done]. unfold default_priority. by rewrite Hno.
  - intros k f p Hk Hp. rewrite meta_get, Hk. simpl. f_equal.
    unfold default_priority. rewrite Hp.
    by destruct (startswith (fn_name f) "is_").
Qed.

Lemma X2_witness :
  ns_get "youtube_re" AppDefinition.__dict__ = Some Other ∧
  ns_get "is_youtube" AppDefinition.__dict__ = Some (Func Sample.fn_is_youtube).
Proof.
  destruct (X2_metaclass_keeps_what_is_set (exec_body AppDefinition.body))
    as (_ & _ & Hother & Hset).
  split.
  - apply Hother; vm_compute; reflexivity.
  - apply (Hset _ _ 5); vm_compute; reflexivity.
Defined.

(** X3.  A glyph that [get_glyph] returns is the glyph of an app definition
    of the class that matches the window, and no app definition of a
    strictly higher priority matches: each of those has no key in the
    dictionary or returned a false value. *)
Theorem X3_returned_glyph_has_top_priority
        (body : class_body) heap app glyphs g :
  fst (get_glyph app glyphs (mkWorld (make_class body) heap)) = Ok (Some g) →
  ∃ f,
    f ∈ app_definitions (make_class body) ∧
    matches app glyphs f ∧
    glyphs !! get_app_name f = Some g ∧
    ∀ h, h ∈ app_definitions (make_class body) →
         priority_of f < priority_of h → passed app glyphs h.
Proof.
  destruct (rule_sequence_facts body) as (rules & Hr & Hs & Hp & _).
  rewrite get_glyph_spec. cbn [class_dict]. rewrite Hr. cbn [bind].
  intros (pre & f & post & -> & Hpre & Hm & Hg)%for_loop_Some_inv.
  exists f. split_and!; try done.
  - rewrite <- Hp. apply elem_of_app. right. left.
  - intros h Hh Hlt. rewrite <- Hp in Hh.
    apply elem_of_app in Hh as [Hh|Hh].
    + rewrite Forall_forall in Hpre. by apply Hpre.
    + apply StronglySorted_app_1_r, StronglySorted_cons in Hs as [Hf _].
      apply elem_of_cons in Hh as [->|Hh]; [lia|].
      rewrite Forall_forall in Hf. specialize (Hf h Hh).
      unfold by_priority in Hf. lia.
Qed.

Lemma X3_witness :
  ∃ f,
    f ∈ app_definitions AppDefinition.__dict__ ∧
    matches Scenario.video_page Scenario.browser_and_youtube f ∧
    Scenario.browser_and_youtube !! get_app_name f = Some "Y".
Proof.
  destruct (X3_returned_glyph_has_top_priority AppDefinition.body []
              Scenario.video_page Scenario.browser_and_youtube "Y")
    as (f & Hin & Hm & Hg & _).
  - rewrite get_glyph_spec. vm_compute. reflexivity.
  - by exists f.
Defined.

(** X4.  Entries of the glyph dictionary whose key is the app name of no
    app definition of the class do not count: adding or removing such an
    entry changes neither the result nor the calls. *)
Theorem X4_foreign_keys_do_not_count app glyphs w (k g : string) :
  k ∉ map get_app_name (app_definitions (class_dict w)) →
  fst (get_glyph app (<[k := g]> glyphs) w) = fst (get_glyph app glyphs w) ∧
  get_glyph_calls app (<[k := g]> glyphs) w = get_glyph_calls app glyphs w ∧
  fst (get_glyph app (delete k glyphs) w) = fst (get_glyph app glyphs w) ∧
  get_glyph_calls app (delete k glyphs) w = get_glyph_calls app glyphs w.
Proof.
  intros Hk. rewrite !get_glyph_spec, !get_glyph_calls_spec.
  destruct (rule_sequence (class_dict w)) as [rules|e] eqn:Hr; [|done].
  assert (Hk' : k ∉ map get_app_name rules).
  { intros Hin. apply Hk.
    apply sort_by_priority_perm in Hr.
    apply list_elem_of_In. apply list_elem_of_In in Hin.
    eapply Permutation_in; [|exact Hin]. by apply Permutation_map. }
  cbn [bind]. rewrite <- !for_loop_traced_result.
  rewrite (for_loop_traced_insert app glyphs rules k g Hk').
  by rewrite (for_loop_traced_delete app glyphs rules k Hk').
Qed.

Lemma X4_witness :
  fst (get_glyph Scenario.video_page
         (<["slack" := "S"]> Scenario.browser_and_youtube) initial_world)
  = fst (get_glyph Scenario.video_page Scenario.browser_and_youtube
           initial_world).
Proof.
  apply (X4_foreign_keys_do_not_count Scenario.video_page
           Scenario.browser_and_youtube initial_world "slack" "S").
  by_evaluation.
Defined.

(** X5.  For a class made with the metaclass, an exception that ends
    [get_glyph] is the exception of the last app definition called, one
    whose app name is a key of the dictionary; [get_glyph] raises nothing of
    its own. *)
Theorem X5_exception_comes_from_last_call
        (body : class_body) heap app glyphs e :
  fst (get_glyph app glyphs (mkWorld (make_class body) heap)) = Raise e →
  ∃ init f,
    get_glyph_calls app glyphs (mkWorld (make_class body) heap)
    = init ++ [f] ∧
    f ∈ app_definitions (make_class body) ∧
    keyed glyphs f ∧
    fn_call f app = Raise e.
Proof.
  destruct (rule_sequence_facts body) as (rules & Hr & _ & Hp & _).
  rewrite get_glyph_spec, get_glyph_calls_spec. cbn [class_dict].
  rewrite Hr. cbn [bind]. rewrite <- for_loop_traced_result.
  intros (init & f & Hc & Hk & He)%for_loop_traced_Raise.
  exists init, f. split_and!; try done.
  rewrite <- Hp.
  destruct (calls_prefix app glyphs rules) as [rest Hrest].
  assert (Hf : f ∈ filter (keyed glyphs) rules).
  { rewrite Hrest, Hc. apply elem_of_app. left. apply elem_of_app. right.
    left. }
  by apply list_elem_of_filter in Hf as [_ ?].
Qed.

Lemma X5_witness :
  ∃ init f,
    get_glyph_calls (Scenario.firefox None None) Scenario.browser_and_youtube
      initial_world = init ++ [f] ∧
    fn_call f (Scenario.firefox None None) = Raise TypeError.
Proof.
  destruct (X5_exception_comes_from_last_call AppDefinition.body []
              (Scenario.firefox None None) Scenario.browser_and_youtube
              TypeError)
    as (init & f & Hc & _ & _ & He).
  - rewrite get_glyph_spec. vm_compute. reflexivity.
  - by exists init, f.
Defined.

(** X6.  What the priority is for: an app definition that is alone in
    having its priority or a higher one, and that matches the window, decides
    the result.  It is the only call, whatever the other app definitions
    would return or raise. *)
Theorem X6_highest_priority_is_tried_first
        (body : class_body) heap app glyphs f :
  filter (λ h, priority_of f <= priority_of h)
    (app_definitions (make_class body)) = [f] →
  matches app glyphs f →
  fst (get_glyph app glyphs (mkWorld (make_class body) heap))
  = Ok (glyphs !! get_app_name f) ∧
  get_glyph_calls app glyphs (mkWorld (make_class body) heap) = [f].
Proof.
  intros Hf Hm.
  destruct (rule_sequence_facts body) as (rules & Hr & Hs & Hp & _).
  rewrite get_glyph_spec, get_glyph_calls_spec. cbn [class_dict].
  rewrite Hr. cbn [bind].
  assert (Hin : f ∈ rules).
  { rewrite Hp. eapply (proj1 (list_elem_of_filter _ _ _)).
    rewrite Hf. left. }
  destruct rules as [|h rules]; [by apply elem_of_nil in Hin|].
  assert (Hh : h = f).
  { assert (Hh : h ∈ filter (λ h, priority_of f <= priority_of h)
                     (app_definitions (make_class body))).
    { apply list_elem_of_filter. split; [|rewrite <- Hp; left].
      apply elem_of_cons in Hin as [->|Hin]; [lia|].
      apply StronglySorted_cons in Hs as [Hh _].
      rewrite Forall_forall in Hh. apply (Hh f Hin). }
    rewrite Hf in Hh. by apply list_elem_of_singleton in Hh. }
  subst h. rewrite <- for_loop_traced_result.
  pose proof (for_loop_first_match app glyphs [] f rules
                (List.Forall_nil _) Hm) as Hfirst.
  change ([] ++ f :: rules) with (f :: rules) in Hfirst.
  by rewrite Hfirst.
Qed.

Lemma X6_witness :
  fst (get_glyph Scenario.video_page Scenario.browser_and_youtube
         initial_world) = Ok (Some "Y") ∧
  get_glyph_calls Scenario.video_page Scenario.browser_and_youtube
    initial_world = [Sample.fn_is_youtube].
Proof.
  apply (X6_highest_priority_is_tried_first AppDefinition.body []
           Scenario.video_page Scenario.browser_and_youtube
           Sample.fn_is_youtube).
  - vm_compute. reflexivity.
  - by_evaluation.
Defined.

(** ** The pattern of is_youtube *)

Lemma prefix_empty s : String.prefix "" s = true.
Proof. by destruct s. Qed.

Lemma prefix_cons a l b s :
  String.prefix (String a l) (String b s) = Ascii.eqb a b && String.prefix l s.
Proof.
  cbn [String.prefix]. destruct (ascii_dec a b) as [->|Hne].
  - by rewrite Ascii.eqb_refl.
  - apply Ascii.eqb_neq in Hne. by rewrite Hne.
Qed.

Lemma found_or_else {A} (a b : option A) :
  found (Re.or_else a b) = found a || found b.
Proof. by destruct a, b. Qed.

(** Matching a literal is taking a prefix off. *)
Lemma lit_at_prefix l pos s k :
  Re.lit_at l pos s k
  = if String.prefix l s
    then k (pos + String.length l)%nat (slice_from (String.length l) s)
    else None.
Proof.
  revert pos s. induction l as [|a l IH]; intros pos s.
  - rewrite prefix_empty. cbn [Re.lit_at String.length slice_from].
    rewrite Nat.add_0_r. by destruct s.
  - destruct s as [|b s]; [reflexivity|].
    cbn [Re.lit_at]. rewrite prefix_cons.
    destruct (Ascii.eqb a b); [|reflexivity].
    cbn [andb]. rewrite IH. cbn [String.length slice_from].
    by rewrite Nat.add_succ_r.
Qed.

Lemma after_count_found p t :
  found (after_count p t) = String.prefix ")YouTube" t.
Proof.
  unfold after_count. rewrite lit_at_prefix.
  destruct t as [|c t]; [reflexivity|].
  rewrite !prefix_cons, prefix_empty, andb_true_r.
  destruct (Ascii.eqb ")" c); [|reflexivity].
  cbn [andb String.length slice_from]. rewrite lit_at_prefix.
  by destruct (String.prefix "YouTube" t).
Qed.

Lemma digits_then_count_found p t :
  found (Re.plus_at Re.digit p t after_count)
  = match t with
    | String d t' => Re.digit d && String.prefix ")YouTube" (skip_digits t')
    | EmptyString => false
    end.
Proof.
  revert p. induction t as [|d t IH]; intros p; [reflexivity|].
  cbn [Re.plus_at]. destruct (Re.digit d) eqn:Hd; [|reflexivity].
  rewrite found_or_else, IH, after_count_found. cbn [andb].
  destruct t as [|d' t']; [reflexivity|].
  cbn [skip_digits]. destruct (Re.digit d') eqn:Hd'; [|reflexivity].
  cbn [andb].
  assert (Hno : String.prefix ")YouTube" (String d' t') = false).
  { rewrite prefix_cons. destruct (Ascii.eqb_spec ")" d') as [<-|]; [|done].
    vm_compute in Hd'. discriminate Hd'. }
  rewrite Hno. by rewrite orb_false_r.
Qed.

Lemma count_group_found pos s :
  found (Re.lit_at "(" pos s (fun p t => Re.plus_at Re.digit p t after_count))
  = counted_prefix s.
Proof.
  rewrite lit_at_prefix. destruct s as [|c s]; [reflexivity|].
  rewrite prefix_cons, prefix_empty, andb_true_r.
  cbn [String.length slice_from counted_prefix].
  destruct (Ascii.eqb_spec "(" c) as [<-|Hne].
  - rewrite digits_then_count_found. by destruct s.
  - assert (Hc : Ascii.eqb c "(" = false) by (apply Ascii.eqb_neq; congruence).
    rewrite Hc. by destruct s.
Qed.

Lemma youtube_re_match_at pos s :
  found (Re.match_at AppDefinition.youtube_re pos s (fun e _ => Some e))
  = (Nat.eqb pos 0 && (counted_prefix s || String.prefix "YouTube" s))
    || String.prefix "- YouTube" s.
Proof.
  unfold AppDefinition.youtube_re. cbn [Re.match_at].
  rewrite found_or_else. f_equal.
  - destruct (Nat.eqb pos 0); [|reflexivity]. cbn [andb].
    rewrite found_or_else. f_equal.
    + apply count_group_found.
    + rewrite lit_at_prefix. by destruct (String.prefix "YouTube" s).
  - rewrite lit_at_prefix. by destruct (String.prefix "- YouTube" s).
Qed.

Lemma youtube_re_search_later pos s :
  pos ≠ 0%nat →
  found (Re.search_from AppDefinition.youtube_re pos s)
  = contains "- YouTube" s.
Proof.
  revert pos. induction s as [|c s IH]; intros pos Hpos;
    pose proof (youtube_re_match_at pos) as Hm;
    apply Nat.eqb_neq in Hpos; rewrite Hpos in Hm; cbn [andb orb] in Hm;
    cbn [Re.search_from contains].
  - specialize (Hm ""). destruct (Re.match_at _ _ _ _).
    + by rewrite <- Hm.
    + rewrite <- Hm. reflexivity.
  - specialize (Hm (String c s)). destruct (Re.match_at _ _ _ _).
    + by rewrite <- Hm.
    + rewrite <- Hm. cbn [orb found]. apply IH. lia.
Qed.

(** The pattern finds something in exactly the titles it is written for. *)
Lemma youtube_re_found s :
  found (Re.search_from AppDefinition.youtube_re 0 s) = youtube_title s.
Proof.
  unfold youtube_title, startswith.
  pose proof (youtube_re_match_at 0 s) as Hm. cbn [Nat.eqb andb] in Hm.
  destruct s as [|c s]; cbn [Re.search_from contains].
  - destruct (Re.match_at _ _ _ _); cbn [found] in *;
      destruct (counted_prefix ""), (String.prefix "YouTube" ""),
        (String.prefix "- YouTube" ""); done.
  - destruct (Re.match_at _ _ _ _).
    + cbn [found] in *.
      destruct (counted_prefix (String c s)),
        (String.prefix "YouTube" (String c s)),
        (String.prefix "- YouTube" (String c s)); done.
    + rewrite (youtube_re_search_later 1 s) by done.
      cbn [found] in Hm.
      destruct (counted_prefix (String c s)),
        (String.prefix "YouTube" (String c s)),
        (String.prefix "- YouTube" (String c s)); done.
Qed.

(** X7.  [is_youtube] on a window with a title never raises, and returns a
    true value exactly when the class is one of the three browsers and the
    title starts with "YouTube", or starts with a count in parentheses
    directly followed by "YouTube", or has "- YouTube" somewhere. *)
Theorem X7_is_youtube_accepts_youtube_titles title cls inst :
  ∃ v,
    AppDefinition.is_youtube (mkApp (Some title) cls inst) = Ok v ∧
    truthy v
    = in_tuple cls ["Firefox"; "Google-chrome"; "qutebrowser"]
      && youtube_title title.
Proof.
  unfold AppDefinition.is_youtube, AppDefinition.is_browser, and_, bind.
  cbn [class_ name truthy].
  destruct (in_tuple cls _); [|by eexists].
  cbn [andb]. unfold Re.search.
  pose proof (youtube_re_found title) as Hf.
  destruct (Re.search_from AppDefinition.youtube_re 0 title);
    eexists; (split; [reflexivity|exact Hf]).
Qed.

(** ** Windows by class *)

(** On a window without a class every function of the class body but
    [is_burp_suite] returns a false value. *)
Lemma body_false_without_class title inst :
  Forall (λ kv, match snd kv with
                | Func f =>
                    with_default_priority f = Sample.fn_is_burp_suite ∨
                    returns_false (mkApp title None inst) f
                | Other => True
                end) AppDefinition.body.
Proof.
  unfold AppDefinition.body.
  repeat (apply List.Forall_cons;
          [ cbn [snd];
            first [ exact I
                  | right; eexists; split; reflexivity
                  | left; reflexivity ]
          | ]).
  apply List.Forall_nil.
Qed.

(** X8.  A window without a class is an app of none of the classes: the
    one glyph it can get is that of "burp_suite", which it gets exactly when
    its title starts with "Burp Suite" (and the dictionary has the key);
    otherwise the result is [None]. *)
Theorem X8_without_class_only_burp_suite app glyphs heap :
  class_ app = None →
  fst (get_glyph app glyphs (mkWorld AppDefinition.__dict__ heap))
  = Ok (if from_option (λ n, startswith n "Burp Suite") false (name app)
        then glyphs !! "burp_suite"
        else None).
Proof.
  intros Hc. destruct app as [title cls inst]. simpl in Hc. subst cls.
  destruct (rule_sequence_facts AppDefinition.body)
    as (rules & Hr & _ & Hp & _).
  rewrite get_glyph_spec. cbn [class_dict name].
  change AppDefinition.__dict__ with (make_class AppDefinition.body).
  rewrite Hr. cbn [bind].
  assert (Hall : Forall (λ g, g = Sample.fn_is_burp_suite
                              ∨ passed (mkApp title None inst) glyphs g) rules).
  { rewrite Hp. apply Forall_forall. intros g Hg.
    apply make_class_origin in Hg as (k & f0 & Hin & ->).
    pose proof (body_false_without_class title inst) as Hb.
    rewrite Forall_forall in Hb. specialize (Hb _ Hin). simpl in Hb.
    destruct Hb as [Hb|(v & Hv & Hf)]; [by left|].
    right. intros _. exists v. by rewrite with_default_priority_call. }
  assert (Hin : Sample.fn_is_burp_suite ∈ rules).
  { rewrite Hp. apply list_elem_of_lookup. exists 19%nat.
    vm_compute. reflexivity. }
  destruct title as [[|c n]|].
  - by rewrite (for_loop_single _ _ _ _ (VStr "") Hall eq_refl Hin).
  - by rewrite (for_loop_single _ _ _ _
                  (VBool (startswith (String c n) "Burp Suite"))
                  Hall eq_refl Hin).
  - by rewrite (for_loop_single _ _ _ _ VNone Hall eq_refl Hin).
Qed.

Lemma X8_witness :
  fst (get_glyph Sample.burp (<["burp_suite" := "P"]> Scenario.browser_only)
         initial_world) = Ok (Some "P").
Proof.
  change initial_world with (mkWorld AppDefinition.__dict__ []).
  rewrite (X8_without_class_only_burp_suite Sample.burp
             (<["burp_suite" := "P"]> Scenario.browser_only) [] eq_refl).
  vm_compute. reflexivity.
Defined.

(** One turn of the loop. *)
Lemma for_loop_cons app glyphs f rest :
  for_loop app glyphs (f :: rest)
  = match glyphs !! get_app_name f with
    | None => for_loop app glyphs rest
    | Some _ =>
        bind (fn_call f app) (λ v,
          if truthy v then Ok (glyphs !! get_app_name f)
          else for_loop app glyphs rest)
    end.
Proof. reflexivity. Qed.

(** The first three rules of the module's class. *)
Lemma AppDefinition_first_rules :
  ∃ post,
    rule_sequence AppDefinition.__dict__
    = Ok (Sample.fn_is_youtube :: Sample.fn_is_download_manager
            :: Sample.fn_is_browser :: post).
Proof.
  eexists. change AppDefinition.__dict__ with (make_class AppDefinition.body).
  rewrite rule_sequence_make_class. reflexivity.
Qed.

Lemma in_browsers cls :
  in_tuple cls ["Firefox"; "Google-chrome"; "qutebrowser"] = true →
  cls = Some "Firefox" ∨ cls = Some "Google-chrome" ∨ cls = Some "qutebrowser".
Proof.
  destruct cls as [c|]; [|done]. unfold in_tuple, existsb, eq_str.
  rewrite !orb_true_iff, !String.eqb_eq.
  intros [->|[->|[->|[=]]]]; [by left|by right; left|by right; right].
Qed.

(** X9.  A window of one of the three browser classes that has a title,
    with a glyph for "browser" in the dictionary: the result is the glyph of
    "youtube" when the dictionary has one and the title is a YouTube title,
    and the glyph of "browser" in every other case. *)
Theorem X9_browser_windows app glyphs heap title b :
  in_tuple (class_ app) ["Firefox"; "Google-chrome"; "qutebrowser"] = true →
  name app = Some title →
  glyphs !! "browser" = Some b →
  fst (get_glyph app glyphs (mkWorld AppDefinition.__dict__ heap))
  = Ok (Some (match glyphs !! "youtube" with
              | Some y => if youtube_title title then y else b
              | None => b
              end)).
Proof.
  intros Hcls Hname Hb. destruct app as [n cls inst].
  cbn [class_ name] in Hcls, Hname. subst n.
  assert (Hyt : ∃ v, AppDefinition.is_youtube (mkApp (Some title) cls inst)
                     = Ok v ∧ truthy v = youtube_title title).
  { unfold AppDefinition.is_youtube, AppDefinition.is_browser, and_, bind.
    cbn [class_ name truthy]. rewrite Hcls. unfold Re.search.
    pose proof (youtube_re_found title) as Hf.
    destruct (Re.search_from AppDefinition.youtube_re 0 title);
      eexists; (split; [reflexivity|exact Hf]). }
  destruct Hyt as (v & Hv & Ht).
  destruct AppDefinition_first_rules as [post Hr].
  rewrite get_glyph_spec. cbn [class_dict]. rewrite Hr. cbn [bind].
  set (app := mkApp (Some title) cls inst) in *.
  assert (Hrest : for_loop app glyphs
                    (Sample.fn_is_download_manager :: Sample.fn_is_browser
                       :: post) = Ok (Some b)).
  { rewrite !for_loop_cons.
    change (get_app_name Sample.fn_is_download_manager)
      with "download_manager".
    change (get_app_name Sample.fn_is_browser) with "browser".
    assert (Hdm : fn_call Sample.fn_is_download_manager app
                  = Ok (VBool false)).
    { subst app. destruct (in_browsers _ Hcls) as [-> | [-> | ->]];
        reflexivity. }
    assert (Hbr : fn_call Sample.fn_is_browser app = Ok (VBool true)).
    { subst app. cbn [fn_call Sample.fn_is_browser priority def].
      unfold AppDefinition.is_browser. cbn [class_]. by rewrite Hcls. }
    rewrite Hdm, Hbr, Hb. cbn [bind truthy].
    by destruct (glyphs !! "download_manager"). }
  rewrite for_loop_cons.
  change (get_app_name Sample.fn_is_youtube) with "youtube".
  destruct (glyphs !! "youtube") as [y|] eqn:Hy; [|exact Hrest].
  change (fn_call Sample.fn_is_youtube app) with (AppDefinition.is_youtube app).
  rewrite Hv. cbn [bind]. rewrite Ht.
  destruct (youtube_title title); [done|exact Hrest].
Qed.

Lemma X9_witness :
  fst (get_glyph Scenario.video_page Scenario.browser_only initial_world)
  = Ok (Some "B").
Proof.
  change initial_world with (mkWorld AppDefinition.__dict__ []).
  rewrite (X9_browser_windows Scenario.video_page Scenario.browser_only []
             "Rocq - YouTube - Mozilla Firefox" "B");
    vm_compute; reflexivity.
Defined.

(** ** Extending the class *)

Lemma exec_body_keys (body : class_body) (k : string) :
  k ∈ map fst (exec_body body) → k ∈ map fst body.
Proof.
  intros ([k' v] & <- & Hin)%list_elem_of_In%in_map_iff.
  apply list_elem_of_In, exec_body_elem in Hin.
  apply list_elem_of_In, in_map_iff. exists (k', v).
  split; [done|]. by apply list_elem_of_In.
Qed.

(** A statement for a new name puts it last in the namespace. *)
Lemma exec_body_snoc (body : class_body) (k : string) v :
  k ∉ map fst body →
  exec_body (body ++ [(k, v)]) = exec_body body ++ [(k, v)].
Proof.
  intros Hk. unfold exec_body. rewrite fold_left_app. cbn [fold_left].
  unfold exec_step at 1. cbn [fst snd]. apply ns_set_fresh.
  intros Hin. by apply Hk, exec_body_keys.
Qed.

Lemma app_definitions_app (ns1 ns2 : namespace) :
  app_definitions (ns1 ++ ns2) = app_definitions ns1 ++ app_definitions ns2.
Proof.
  unfold app_definitions, values. by rewrite map_app, omap_app.
Qed.

(** X10.  What the module's docstring tells a user to do: add a function
    [is_{app_name}] to the class and an entry {app_name} to the glyphs.  For
    a class body, a new name, and a window that none of the app definitions
    already there claims (each has no key or returns a false value), the
    result of [get_glyph] with the extended class is the new glyph when the
    new function returns a true value, and [None] when it returns a false
    one. *)
Theorem X10_added_definition_is_used
        (body : class_body) app_name predicate heap app glyphs v :
  let new := def (String.append "is_" app_name) predicate in
  String.append "is_" app_name ∉ map fst body →
  Forall (passed app glyphs) (app_definitions (make_class body)) →
  predicate app = Ok v →
  fst (get_glyph app glyphs
         (mkWorld (make_class (body ++ [(fn_name new, Func new)])) heap))
  = Ok (if truthy v then glyphs !! app_name else None).
Proof.
  intros new Hfresh Hold Hv.
  set (body' := body ++ [(fn_name new, Func new)]).
  assert (Hdefs : app_definitions (make_class body')
                  = app_definitions (make_class body) ++ [priority 0 new]).
  { unfold make_class, body'. cbn [fn_name new def].
    rewrite exec_body_snoc by done.
    unfold StaticMethodPriorityMeta. rewrite map_app.
    rewrite app_definitions_app. f_equal.
    unfold app_definitions, values. cbn [map omap list_omap fst snd].
    unfold default_priority, keep_app_definition.
    assert (Hd : is_app_definition (Func new) = true).
    { unfold is_app_definition, startswith. cbn [fn_name new def].
      change (String.append "is_" app_name)
        with (String "i" (String "s" (String "_" app_name))).
      change "is_" with (String "i" (String "s" (String "_" ""))).
      rewrite !prefix_cons. by rewrite prefix_empty. }
    rewrite Hd. cbn [fn_priority new def].
    change (is_app_definition (Func (priority 0 new)))
      with (is_app_definition (Func new)). by rewrite Hd. }
  destruct (rule_sequence_facts body') as (rules & Hr & _ & Hp & _).
  rewrite get_glyph_spec. cbn [class_dict]. rewrite Hr. cbn [bind].
  rewrite Hdefs in Hp.
  change app_name with (get_app_name (priority 0 new)).
  apply for_loop_single.
  - rewrite Hp. apply Forall_app. split.
    + eapply Forall_impl; [exact Hold|]. intros g Hg. by right.
    + constructor; [by left|constructor].
  - exact Hv.
  - rewrite Hp. apply elem_of_app. right. left.
Qed.

Lemma X10_witness :
  fst (get_glyph Sample.slack Scenario.slack_only
         (mkWorld
            (make_class
               (AppDefinition.body
                  ++ [("is_slack", Func (def "is_slack" Sample.is_slack))]))
            [])) = Ok (Some "S").
Proof.
  refine (eq_trans
            (X10_added_definition_is_used AppDefinition.body "slack"
               Sample.is_slack [] Sample.slack Scenario.slack_only
               (VBool true) _ _ _) _).
  - by_evaluation.
  - by_evaluation.
  - reflexivity.
  - vm_compute. reflexivity.
Defined.

(** ** The title of Android Studio *)

Lemma contains_tail sub c s :
  contains sub s = true → contains sub (String c s) = true.
Proof. intros H. cbn [contains]. rewrite H. apply orb_true_r. Qed.

Lemma contains_rev_string sub cur s :
  contains sub s = true → contains sub (rev_string cur s) = true.
Proof.
  revert s. induction cur as [|c cur IH]; intros s H; [done|].
  cbn [rev_string]. by apply IH, contains_tail.
Qed.

Lemma split_go_nonempty sep skip cur s : split_go sep skip cur s ≠ [].
Proof.
  revert skip cur. induction s as [|c s IH]; intros skip cur.
  - by destruct skip.
  - destruct skip as [|k]; cbn [split_go]; [|apply IH].
    destruct (String.prefix sep (String c s)); [done|apply IH].
Qed.

Lemma last_cons_nonempty {A} (x : A) l d :
  l ≠ [] → List.last (x :: l) d = List.last l d.
Proof. by destruct l. Qed.

(** The last piece of a split is the end of the string: what it contains,
    the string contains. *)
Lemma split_go_last_contains sub sep skip cur s :
  (skip ≠ 0%nat → cur = []) →
  contains sub (last_item (split_go sep skip cur s)) = true →
  contains sub (rev_string cur s) = true.
Proof.
  unfold last_item. revert skip cur.
  induction s as [|c s IH]; intros skip cur Hskip.
  - by destruct skip.
  - destruct skip as [|k]; cbn [split_go].
    + destruct (String.prefix sep (String c s)).
      * rewrite last_cons_nonempty by apply split_go_nonempty.
        intros H. apply contains_rev_string, contains_tail.
        by apply (IH (String.length sep - 1)%nat [] (λ _, eq_refl)).
      * intros H. by apply (IH 0%nat (c :: cur)).
    + rewrite (Hskip ltac:(done)). intros H. cbn [rev_string].
      apply contains_tail. by apply (IH k [] (λ _, eq_refl)).
Qed.

Lemma eq_str_true o lit : eq_str o lit = true → o = Some lit.
Proof.
  destruct o as [s|]; [|done]. simpl. by intros ->%String.eqb_eq.
Qed.

(** X11.  [is_android_studio] returns a true value only for a window of
    class "jetbrains-studio" and instance "sun-awt-X11-XFramePeer" whose
    title contains "Android Studio". *)
Theorem X11_android_studio_needs_its_title app v :
  AppDefinition.is_android_studio app = Ok v →
  truthy v = true →
  class_ app = Some "jetbrains-studio" ∧
  instance_ app = Some "sun-awt-X11-XFramePeer" ∧
  ∃ title, name app = Some title ∧ contains "Android Studio" title = true.
Proof.
  unfold AppDefinition.is_android_studio, and_, bind. cbn [truthy].
  destruct (eq_str (class_ app) "jetbrains-studio") eqn:Hc;
    [|by intros [= <-]].
  destruct (eq_str (instance_ app) "sun-awt-X11-XFramePeer") eqn:Hi;
    [|by intros [= <-]].
  destruct (name app) as [title|]; [|by intros [= <-]].
  cbn [of_attr truthy from_option].
  destruct (negb (title =? "")%string) eqn:Hn;
    [|intros [= <-] Ht; cbn [truthy] in Ht; congruence].
  intros [= <-] Ht. cbn [truthy] in Ht.
  split_and!; [by apply eq_str_true..|].
  exists title. split; [done|].
  by apply (split_go_last_contains _ " - " 0%nat [] title (λ H, False_rect _ (H eq_refl))).
Qed.

Lemma X11_witness :
  class_ Sample.android_studio = Some "jetbrains-studio" ∧
  ∃ title, name Sample.android_studio = Some title
           ∧ contains "Android Studio" title = true.
Proof.
  destruct (X11_android_studio_needs_its_title Sample.android_studio
              (VBool true)) as (Hc & _ & Ht).
  - vm_compute. reflexivity.
  - reflexivity.
  - by split.
Defined.

(** ** What a result tells *)

Lemma for_loop_None_inv app glyphs defs :
  for_loop app glyphs defs = Ok None → Forall (passed app glyphs) defs.
Proof.
  induction defs as [|h defs IH]; [constructor|].
  rewrite for_loop_cons.
  destruct (glyphs !! get_app_name h) as [g|] eqn:Hg.
  - destruct (fn_call h app) as [v|e] eqn:Hc; [|done]. cbn [bind].
    destruct (truthy v) eqn:Ht; [done|].
    intros H. constructor; [|by apply IH]. intros _. by exists v.
  - intros H. constructor; [|by apply IH].
    intros [g' Hg']. unfold keyed in *. congruence.
Qed.

(** X12.  When [get_glyph] returns [None], the loop has run to its end:
    every app definition of the class whose app name is a key of the
    dictionary was called, in the order of the rules, and returned a false
    value; none matched and none raised. *)
Theorem X12_None_means_no_match (body : class_body) heap app glyphs :
  fst (get_glyph app glyphs (mkWorld (make_class body) heap)) = Ok None →
  Forall (passed app glyphs) (app_definitions (make_class body)) ∧
  ∃ rules,
    rule_sequence (make_class body) = Ok rules ∧
    get_glyph_calls app glyphs (mkWorld (make_class body) heap)
    = filter (keyed glyphs) rules.
Proof.
  destruct (rule_sequence_facts body) as (rules & Hr & _ & Hp & _).
  rewrite get_glyph_spec, get_glyph_calls_spec. cbn [class_dict].
  rewrite Hr. cbn [bind]. intros Hall%for_loop_None_inv.
  split; [by rewrite <- Hp|].
  exists rules. split; [done|].
  by rewrite (for_loop_no_match _ _ _ Hall).
Qed.

Lemma X12_witness :
  Forall (passed Scenario.unknown_app Scenario.browser_only)
    (app_definitions AppDefinition.__dict__).
Proof.
  apply (X12_None_means_no_match AppDefinition.body []
           Scenario.unknown_app Scenario.browser_only).
  rewrite get_glyph_spec. vm_compute. reflexivity.
Defined.

(** ** The window instance *)

(** Two windows on which every rule does the same get the same result. *)
Lemma for_loop_ext app app' glyphs defs :
  Forall (λ f, fn_call f app = fn_call f app') defs →
  for_loop_traced app glyphs defs = for_loop_traced app' glyphs defs.
Proof.
  induction 1 as [|h defs Hh _ IH]; [done|].
  cbn [for_loop_traced]. by rewrite Hh, IH.
Qed.

Lemma body_ignores_instance title cls inst inst' :
  cls ≠ Some "jetbrains-studio" →
  Forall (λ kv, match snd kv with
                | Func f => fn_call f (mkApp title cls inst)
                            = fn_call f (mkApp title cls inst')
                | Other => True
                end) AppDefinition.body.
Proof.
  intros Hcls.
  assert (Hno : eq_str cls "jetbrains-studio" = false).
  { destruct (eq_str cls "jetbrains-studio") eqn:E; [|done].
    by apply eq_str_true in E. }
  unfold AppDefinition.body.
  repeat (apply List.Forall_cons;
          [ cbn [snd fn_call def priority];
            first [ exact I
                  | reflexivity
                  | unfold AppDefinition.is_android_studio; cbn [class_];
                    rewrite Hno; reflexivity ]
          | ]).
  apply List.Forall_nil.
Qed.

(** X13.  The window instance is read for windows of class
    "jetbrains-studio" only: for a window of any other class (or of none),
    neither the result of [get_glyph] nor the calls it makes depend on the
    instance. *)
Theorem X13_instance_matters_for_jetbrains_only
        title cls inst inst' glyphs heap :
  cls ≠ Some "jetbrains-studio" →
  fst (get_glyph (mkApp title cls inst) glyphs
         (mkWorld AppDefinition.__dict__ heap))
  = fst (get_glyph (mkApp title cls inst') glyphs
           (mkWorld AppDefinition.__dict__ heap)) ∧
  get_glyph_calls (mkApp title cls inst) glyphs
    (mkWorld AppDefinition.__dict__ heap)
  = get_glyph_calls (mkApp title cls inst') glyphs
      (mkWorld AppDefinition.__dict__ heap).
Proof.
  intros Hcls.
  destruct (rule_sequence_facts AppDefinition.body)
    as (rules & Hr & _ & Hp & _).
  rewrite !get_glyph_spec, !get_glyph_calls_spec. cbn [class_dict].
  change AppDefinition.__dict__ with (make_class AppDefinition.body).
  rewrite Hr. cbn [bind]. rewrite <- !for_loop_traced_result.
  assert (Hext : for_loop_traced (mkApp title cls inst) glyphs rules
                 = for_loop_traced (mkApp title cls inst') glyphs rules).
  { apply for_loop_ext. rewrite Hp. apply Forall_forall. intros g Hg.
    apply make_class_origin in Hg as (k & f0 & Hin & ->).
    rewrite !with_default_priority_call.
    pose proof (body_ignores_instance title cls inst inst' Hcls) as Hb.
    rewrite Forall_forall in Hb. apply (Hb _ Hin). }
  by rewrite Hext.
Qed.

Lemma X13_witness :
  fst (get_glyph (Scenario.firefox None (Some "Navigator"))
         Scenario.browser_only initial_world)
  = fst (get_glyph (Scenario.firefox None None)
           Scenario.browser_only initial_world).
Proof.
  apply (X13_instance_matters_for_jetbrains_only None (Some "Firefox")
           (Some "Navigator") None Scenario.browser_only []).
  discriminate.
Defined.

(** ** The general promises and the title that is not there *)

Lemma and_returns x y :
  (∃ v, x = Ok v) → (∃ v, y = Ok v) → ∃ v, and_ x y = Ok v.
Proof.
  intros [a ->] [b ->]. unfold and_, bind. destruct (truthy a); by eexists.
Qed.

Lemma search_returns r title : ∃ v, Re.search r (Some title) = Ok v.
Proof. unfold Re.search. destruct (Re.search_from r 0 title); by eexists. Qed.

(** But for a browser window without a title, every function of the class
    body returns. *)
Lemma body_returns_with_title title cls inst :
  ¬ untitled_browser (mkApp title cls inst) →
  Forall (λ kv, match snd kv with
                | Func f => ∃ v, fn_call f (mkApp title cls inst) = Ok v
                | Other => True
                end) AppDefinition.body.
Proof.
  intros Hn.
  assert (Hyt : ∃ v, AppDefinition.is_youtube (mkApp title cls inst) = Ok v).
  { unfold AppDefinition.is_youtube, AppDefinition.is_browser.
    cbn [class_ name]. destruct title as [t|].
    - apply and_returns; [by eexists|apply search_returns].
    - destruct (in_tuple cls ["Firefox"; "Google-chrome"; "qutebrowser"])
        eqn:E; [by destruct Hn|].
      by eexists. }
  unfold AppDefinition.body.
  repeat (apply List.Forall_cons;
          [ cbn [snd fn_call def priority];
            first [ exact I
                  | exact Hyt
                  | eexists; reflexivity
                  | unfold AppDefinition.is_media_player,
                      AppDefinition.is_office,
                      AppDefinition.is_android_studio,
                      AppDefinition.is_burp_suite, AppDefinition.is_gephi;
                    repeat apply and_returns; by eexists ]
          | ]).
  apply List.Forall_nil.
Qed.

Lemma all_return_with_title app :
  ¬ untitled_browser app →
  Forall (λ f, ∃ v, fn_call f app = Ok v)
    (app_definitions AppDefinition.__dict__).
Proof.
  intros Hn. destruct app as [title cls inst].
  apply Forall_forall. intros f Hf.
  apply make_class_origin in Hf as (k & f0 & Hin & ->).
  rewrite with_default_priority_call.
  pose proof (body_returns_with_title title cls inst Hn) as Hb.
  rewrite Forall_forall in Hb. apply (Hb _ Hin).
Qed.

(** A rule that returns and does not match is passed over. *)
Lemma not_matches_passed app glyphs f :
  (∃ v, fn_call f app = Ok v) → ¬ matches app glyphs f → passed app glyphs f.
Proof.
  intros [v Hv] Hn Hk. exists v. split; [done|].
  destruct (truthy v) eqn:Ht; [|done].
  destruct Hn. split; [done|]. by exists v.
Qed.

Lemma all_passed_with_title app glyphs (rules : list function) :
  ¬ untitled_browser app →
  rules ⊆ app_definitions AppDefinition.__dict__ →
  Forall (λ g, ¬ matches app glyphs g) rules →
  Forall (passed app glyphs) rules.
Proof.
  intros Hn Hsub Hno. pose proof (all_return_with_title app Hn) as Hret.
  rewrite Forall_forall in Hret, Hno. apply Forall_forall. intros g Hg.
  apply not_matches_passed; [apply Hret, Hsub, Hg|by apply Hno].
Qed.

(** C3.  The order of the calls and the short circuit hold for every input
    (X14).  That the glyph of the first rule with a key and a true predicate
    is returned holds for [AppDefinition] on every glyph dictionary and every
    window but a browser window without a title; there [is_youtube], which
    does not guard the title as [is_android_studio] and [is_burp_suite] do,
    raises [TypeError] in front of the rule that matches: on the untitled
    Firefox window with glyphs for "youtube" and "browser" the call ends with
    that exception instead of returning "B". *)
Theorem C3_first_match_but_for_untitled_browsers :
  (∀ app glyphs heap,
      ¬ untitled_browser app →
      returns_first_match app glyphs (mkWorld AppDefinition.__dict__ heap)) ∧
  untitled_browser (Scenario.firefox None None) ∧
  fst (get_glyph (Scenario.firefox None None) Scenario.browser_and_youtube
         initial_world) = Raise TypeError ∧
  ¬ returns_first_match (Scenario.firefox None None)
      Scenario.browser_and_youtube initial_world.
Proof.
  split_and!.
  - intros app glyphs heap Hn rules pre f post Hr -> Hpre Hm.
    cbn [class_dict] in Hr. rewrite get_glyph_spec. cbn [class_dict].
    rewrite Hr. cbn [bind]. rewrite <- for_loop_traced_result.
    rewrite (for_loop_first_match app glyphs pre f post); [done| |done].
    apply all_passed_with_title; [done| |done].
    intros g Hg. apply sort_by_priority_perm in Hr. rewrite <- Hr.
    apply elem_of_app. by left.
  - by split.
  - rewrite get_glyph_spec. vm_compute. reflexivity.
  - exact first_match_not_returned.
Qed.

(** A Firefox window on a YouTube video page has a title. *)
Lemma C3_titled_witness :
  returns_first_match Scenario.video_page Scenario.browser_and_youtube
    initial_world.
Proof.
  apply (proj1 C3_first_match_but_for_untitled_browsers Scenario.video_page
           Scenario.browser_and_youtube []).
  intros [_ H]. discriminate H.
Defined.

(** C6.  That [get_glyph] returns [None] when no rule has both a key and a
    true predicate holds for [AppDefinition] on every glyph dictionary and
    every window but a browser window without a title, where [is_youtube]
    raises [TypeError] for want of a guard on the title: on the untitled
    Firefox window with a glyph for "youtube" only, no rule satisfies both
    conditions and the call ends with that exception instead of returning
    [None]. *)
Theorem C6_no_match_but_for_untitled_browsers :
  (∀ app glyphs heap,
      ¬ untitled_browser app →
      no_match_gives_None app glyphs (mkWorld AppDefinition.__dict__ heap)) ∧
  untitled_browser (Scenario.firefox None None) ∧
  fst (get_glyph (Scenario.firefox None None) Scenario.youtube_only
         initial_world) = Raise TypeError ∧
  ¬ no_match_gives_None (Scenario.firefox None None) Scenario.youtube_only
      initial_world.
Proof.
  split_and!.
  - intros app glyphs heap Hn Hnone. cbn [class_dict] in Hnone.
    destruct (rule_sequence_facts AppDefinition.body)
      as (rules & Hr & _ & Hp & _).
    rewrite get_glyph_spec. cbn [class_dict].
    change AppDefinition.__dict__ with (make_class AppDefinition.body) in *.
    rewrite Hr. cbn [bind]. rewrite <- for_loop_traced_result.
    rewrite (for_loop_no_match app glyphs rules); [done|].
    rewrite Hp. by apply all_passed_with_title.
  - by split.
  - rewrite get_glyph_spec. vm_compute. reflexivity.
  - exact no_match_but_exception.
Qed.

(** The window of class "Unknown-App" is no browser window. *)
Lemma C6_titled_witness :
  no_match_gives_None Scenario.unknown_app Scenario.browser_only initial_world.
Proof.
  apply (proj1 C6_no_match_but_for_untitled_browsers Scenario.unknown_app
           Scenario.browser_only []).
  intros [H _]. discriminate H.
Defined.
